(** * The transcript store adapter of [functions/src/database.ts]

    A shallow embedding of the [database] module: the JavaScript values it
    builds, the Firestore primitives it calls (point reads, merge writes,
    field-path updates, ordered queries, write batches) and the eleven
    operations it exports, followed by the properties of the specification
    that concern them. *)

From Stdlib Require Import ZArith Ascii.
From stdpp Require Import gmap strings list sorting.

Set Warnings "-register-all".

(** ** JavaScript values *)

Module Js.

(** The values that flow through [database.ts].  Numbers are integers
    here: the operations only store, compare and order them. *)
Inductive value : Type :=
| VUndefined
| VNull
| VBool (b : bool)
| VNumber (n : Z)
| VString (s : string)
| VObject (fields : list (string * value))
| VFieldDelete.   (* the sentinel [admin.firestore.FieldValue.delete()] *)

(** A plain object: its own enumerable properties, in insertion order. *)
Abbreviation object := (list (string * value)).

Definition is_undefined (v : value) : bool :=
  match v with VUndefined => true | _ => false end.

(** [o[k]] as a lookup: [None] when [k] is not an own property. *)
Fixpoint obj_get (k : string) (o : object) : option value :=
  match o with
  | [] => None
  | (k', v) :: o' => if decide (k' = k) then Some v else obj_get k o'
  end.

(** [o[k]] as an expression: a missing property reads as [undefined]. *)
Definition prop (o : object) (k : string) : value :=
  default VUndefined (obj_get k o).

(** [o[k] = v] for a name [k] that is not an array index: an existing
    property keeps its place, a new one is appended. *)
Fixpoint obj_set (k : string) (v : value) (o : object) : object :=
  match o with
  | [] => [(k, v)]
  | (k', v') :: o' =>
      if decide (k' = k) then (k, v) :: o' else (k', v') :: obj_set k v o'
  end.

(** [delete o[k]]. *)
Fixpoint obj_delete (k : string) (o : object) : object :=
  match o with
  | [] => []
  | (k', v') :: o' =>
      if decide (k' = k) then obj_delete k o' else (k', v') :: obj_delete k o'
  end.

(** [Object.keys(o)]. *)
Definition obj_keys (o : object) : list string := o.*1.

(** The properties of [v] when it is an object, none otherwise. *)
Definition fields_of (v : option value) : object :=
  match v with Some (VObject o) => o | _ => [] end.

(** Does [undefined] occur anywhere inside the value? *)
Fixpoint has_undefined (v : value) : bool :=
  match v with
  | VUndefined => true
  | VObject o =>
      (fix go (o : list (string * value)) : bool :=
         match o with
         | [] => false
         | (_, v') :: o' => has_undefined v' || go o'
         end) o
  | _ => false
  end.

Definition obj_has_undefined (o : object) : bool :=
  has_undefined (VObject o).

(** Does the delete sentinel occur anywhere inside the value? *)
Fixpoint has_sentinel (v : value) : bool :=
  match v with
  | VFieldDelete => true
  | VObject o =>
      (fix go (o : list (string * value)) : bool :=
         match o with
         | [] => false
         | (_, v') :: o' => has_sentinel v' || go o'
         end) o
  | _ => false
  end.

Definition obj_has_sentinel (o : object) : bool :=
  has_sentinel (VObject o).

(** Is some property, at any depth, named by the empty string? *)
Fixpoint has_empty_name (v : value) : bool :=
  match v with
  | VObject o =>
      (fix go (o : list (string * value)) : bool :=
         match o with
         | [] => false
         | (k, v') :: o' =>
             bool_decide (k = EmptyString) || has_empty_name v' || go o'
         end) o
  | _ => false
  end.

Definition obj_has_empty_name (o : object) : bool :=
  has_empty_name (VObject o).

(** The number a decimal digit stands for. *)
Definition digit (c : ascii) : option N :=
  let n := N_of_ascii c in
  if decide (48 ≤ n ≤ 57)%N then Some (n - 48)%N else None.

(** The number a string of decimal digits stands for, after [acc]. *)
Fixpoint digits (s : string) (acc : N) : option N :=
  match s with
  | EmptyString => Some acc
  | String c s' =>
      match digit c with
      | Some d => digits s' (10 * acc + d)%N
      | None => None
      end
  end.

(** An array index: the decimal numeral, without leading zeros, of an
    integer below [2^32 - 1]. *)
Definition array_index (k : string) : option N :=
  match k with
  | EmptyString => None
  | String c k' =>
      if decide (c = "0"%char ∧ k' ≠ EmptyString) then None
      else match digits k 0 with
           | Some n => if decide (n < 4294967295)%N then Some n else None
           | None => None
           end
  end.

(** Where a new array index goes: after the smaller indices and before
    everything else. *)
Fixpoint insert_index (n : N) (k : string) (v : value) (o : object) : object :=
  match o with
  | [] => [(k, v)]
  | (k', v') :: o' =>
      match array_index k' with
      | Some n' =>
          if decide (n' < n)%N then (k', v') :: insert_index n k v o'
          else (k, v) :: o
      | None => (k, v) :: o
      end
  end.

(** [o[k] = v] on an object made by [{}], with the order in which
    JavaScript lists the properties of an object: the array indices first,
    in ascending order, then the other names in the order of their
    creation.  An assignment to [__proto__] goes to the setter that
    [Object.prototype] has for it, and makes no property. *)
Definition obj_assign (k : string) (v : value) (o : object) : object :=
  if decide (k = "__proto__") then o
  else match array_index k with
       | Some n =>
           if decide (k ∈ obj_keys o) then obj_set k v o else insert_index n k v o
       | None => obj_set k v o
       end.

End Js.
Export Js.

(** ** The progress enumeration *)

(** Modelled from the spec: [ProgressType] of [enums.ts], which is not among
    the sources; the six states of the transcript life cycle. *)
Inductive ProgressType : Type :=
| Queued | Analysing | Transcribing | Saving | Done | Error.

Global Instance ProgressType_eq_dec : EqDecision ProgressType.
Proof. solve_decision. Defined.

(** The value of an enumeration member, as it is stored. *)
Definition progress_value (p : ProgressType) : value :=
  VString match p with
          | Queued => "QUEUED"
          | Analysing => "ANALYSING"
          | Transcribing => "TRANSCRIBING"
          | Saving => "SAVING"
          | Done => "DONE"
          | Error => "ERROR"
          end.

(** ** Firestore documents and writes *)

(** The store is the collaborator behind [db]: documents addressed by
    slash-separated paths, each a map from field names to values.  What
    follows is the part of its behaviour that [database.ts] relies on: merge
    writes, field-path updates, creation and deletion with their
    preconditions, write batches that are applied as a whole or not at all,
    and queries ordered by a field and then by document identifier. *)

(** [set(data, {merge: true})] on a document whose fields are [old]: every
    leaf of [data] (a value that is not a map, or an empty map) is written
    at its field path, maps are merged level by level, the delete sentinel
    removes its field, and fields that [data] does not mention stay as they
    are. *)
Fixpoint merge_into (old : object) (data : value) {struct data} : object :=
  match data with
  | VObject fields =>
      (fix go (fields : list (string * value)) (acc : object) : object :=
         match fields with
         | [] => acc
         | (k, v) :: rest =>
             go rest
                match v with
                | VFieldDelete => obj_delete k acc
                | VObject (_ :: _) =>
                    obj_set k (VObject (merge_into (fields_of (obj_get k acc)) v)) acc
                | _ => obj_set k v acc
                end
         end) fields old
  | _ => old
  end.

Definition merge_fields (data old : object) : object :=
  merge_into old (VObject data).

(** One field of a merge write. *)
Definition merge_field (k : string) (v : value) (acc : object) : object :=
  match v with
  | VFieldDelete => obj_delete k acc
  | VObject (f :: sub) =>
      obj_set k (VObject (merge_fields (f :: sub) (fields_of (obj_get k acc)))) acc
  | _ => obj_set k v acc
  end.

(** [update({"a.b": v})]: the field at the path is set, the maps on the way
    are kept (or made), their other fields untouched. *)
Fixpoint update_field (fp : list string) (v : value) (o : object) : object :=
  match fp with
  | [] => o
  | [k] => match v with VFieldDelete => obj_delete k o | _ => obj_set k v o end
  | k :: fp' => obj_set k (VObject (update_field fp' v (fields_of (obj_get k o)))) o
  end.

(** A resource path, split into its segments. *)
Abbreviation path := (list string).

(** The errors an operation can be rejected with. *)
Inductive failure : Type :=
| TypeError          (* a property of [undefined] or [null] was read *)
| InvalidArgument    (* the client refused a path or a value *)
| NotFound           (* [update] of a document that does not exist *)
| AlreadyExists.     (* [create] of a document that exists *)

(** A staged write. *)
Inductive write : Type :=
| WSetMerge (ref : path) (data : object)
| WCreate (ref : path) (data : object)
| WUpdate (ref : path) (field : list string) (v : value)
| WDelete (ref : path).

(** The effect of one write on the documents, or the error that fails it. *)
Definition apply_write (op : write) (m : gmap path object) : failure + gmap path object :=
  match op with
  | WSetMerge ref data => inr (<[ref := merge_fields data (default [] (m !! ref))]> m)
  | WCreate ref data =>
      match m !! ref with
      | Some _ => inl AlreadyExists
      | None => inr (<[ref := data]> m)
      end
  | WUpdate ref fp v =>
      match m !! ref with
      | Some old => inr (<[ref := update_field fp v old]> m)
      | None => inl NotFound
      end
  | WDelete ref => inr (delete ref m)
  end.

(** The writes of a batch in order; the first failure fails them all. *)
Fixpoint apply_writes (ops : list write) (m : gmap path object) : failure + gmap path object :=
  match ops with
  | [] => inr m
  | op :: ops' =>
      match apply_write op m with
      | inl e => inl e
      | inr m' => apply_writes ops' m'
      end
  end.

(** The store: its documents, and the groups of writes it has committed, each
    group applied as a unit, oldest first. *)
Record World : Type := mkWorld {
  docs : gmap path object;
  log : list (list write)
}.

(** ** Promises *)

Inductive outcome (A : Type) : Type :=
| Resolved (a : A)
| Rejected (e : failure)
| Pending.            (* not settled within the turns it was given *)
Arguments Resolved {A} a.
Arguments Rejected {A} e.
Arguments Pending {A}.

Definition Promise (A : Type) : Type := World → outcome A * World.

Definition resolve {A} (a : A) : Promise A := λ w, (Resolved a, w).
Definition reject {A} (e : failure) : Promise A := λ w, (Rejected e, w).

(** [await]: go on with the value, or stop at the rejection. *)
Definition bind {A B} (p : Promise A) (k : A → Promise B) : Promise B :=
  λ w, match p w with
       | (Resolved a, w') => k a w'
       | (Rejected e, w') => (Rejected e, w')
       | (Pending, w') => (Pending, w')
       end.

Notation "'await' x := p 'in' k" := (bind p (λ x, k))
  (at level 10, x name, p at level 100, k at level 200, only parsing).
Notation "'await' 'tt' := p 'in' k" := (bind p (λ _, k))
  (at level 10, p at level 100, k at level 200, only parsing).

(** ** Resource paths *)

(** The pieces of a string between its slashes, empty ones included. *)
Fixpoint segments (s : string) : list string :=
  match s with
  | EmptyString => [EmptyString]
  | String c s' =>
      if decide (c = "/"%char) then EmptyString :: segments s'
      else match segments s' with
           | seg :: rest => String c seg :: rest
           | [] => [String c EmptyString]
           end
  end.

(** A leading or a trailing slash is allowed and ignored. *)
Definition split_path (s : string) : path :=
  filter (λ seg, seg ≠ EmptyString) (segments s).

(** Two slashes in a row are not allowed. *)
Fixpoint double_slash (s : string) : bool :=
  match s with
  | EmptyString => false
  | String c s' =>
      match s' with
      | String c' _ => bool_decide (c = "/"%char ∧ c' = "/"%char)
      | EmptyString => false
      end || double_slash s'
  end.

(** [db.doc(s)]: a document path has an even, positive number of segments. *)
Definition db_doc (s : string) : Promise path :=
  let ref := split_path s in
  if double_slash s then reject InvalidArgument
  else if decide (ref ≠ [] ∧ Nat.even (length ref) = true) then resolve ref
  else reject InvalidArgument.

(** [db.collection(s)]: a collection path has an odd number of segments. *)
Definition db_collection (s : string) : Promise path :=
  let ref := split_path s in
  if double_slash s then reject InvalidArgument
  else if decide (Nat.odd (length ref) = true) then resolve ref
  else reject InvalidArgument.

Fixpoint no_slash (s : string) : bool :=
  match s with
  | EmptyString => true
  | String c s' => if decide (c = "/"%char) then false else no_slash s'
  end.

(** An identifier: one segment of a path. *)
Definition valid_id (id : string) : Prop :=
  id ≠ EmptyString ∧ no_slash id = true.

Global Instance valid_id_dec id : Decision (valid_id id).
Proof. unfold valid_id. apply _. Defined.

(** ** Store primitives *)

(** [batch.commit()]: all the writes, or none. *)
Definition commit (ops : list write) : Promise unit :=
  λ w, match apply_writes ops (docs w) with
       | inl e => (Rejected e, w)
       | inr m => (Resolved (), mkWorld m (log w ++ [ops]))
       end.

(** [ref.get()] followed by [doc.data()]: [None] stands for the [undefined]
    of a document that does not exist. *)
Definition doc_get (ref : path) : Promise (option object) :=
  λ w, (Resolved (docs w !! ref), w).

(** [ref.set(data, {merge: true})]; the client refuses [undefined] and a
    field named by the empty string, at any depth, before anything is
    sent. *)
Definition doc_set_merge (ref : path) (data : object) : Promise unit :=
  if obj_has_undefined data || obj_has_empty_name data then reject InvalidArgument
  else commit [WSetMerge ref data].

(** [ref.delete()]. *)
Definition doc_delete (ref : path) : Promise unit :=
  commit [WDelete ref].

(** [batch.create(ref, data)]: staged; the value is checked at once, and
    refused when it holds [undefined], the delete sentinel, or a field named
    by the empty string. *)
Definition batch_create (ref : path) (data : object) (batch : list write)
  : Promise (list write) :=
  if obj_has_undefined data || obj_has_sentinel data || obj_has_empty_name data
  then reject InvalidArgument
  else resolve (batch ++ [WCreate ref data]).

(** [batch.update(ref, {"a.b": v})]. *)
Definition batch_update (ref : path) (fp : list string) (v : value)
  (batch : list write) : Promise (list write) :=
  if has_undefined v then reject InvalidArgument
  else resolve (batch ++ [WUpdate ref fp v]).

(** [batch.delete(ref)]. *)
Definition batch_delete (ref : path) (batch : list write) : list write :=
  batch ++ [WDelete ref].

(** ** Ordered queries *)

(** The lexicographic combination of two orders. *)
Definition lex {A B} (RA : relation A) (RB : relation B) : relation (A * B) :=
  λ x y, (RA x.1 y.1 ∧ x.1 ≠ y.1) ∨ (x.1 = y.1 ∧ RB x.2 y.2).

Global Instance lex_dec {A B} (RA : relation A) (RB : relation B)
  `{!EqDecision A, !RelDecision RA, !RelDecision RB} : RelDecision (lex RA RB).
Proof. intros x y. unfold lex. apply _. Defined.

(** The place of a value in the order of a query: first its type (null,
    booleans, numbers, strings, maps), then the value within its type, then
    the identifier of its document.  Maps are not compared further. *)
Definition sort_key : Type := nat * (Z * (string * string)).

Definition key_le : relation sort_key :=
  lex (≤)%nat (lex (≤)%Z (lex String.le String.le)).

Definition value_key (v : value) (id : string) : option sort_key :=
  match v with
  | VNull => Some (0, (0%Z, (EmptyString, id)))
  | VBool b => Some (1, ((if b then 1 else 0)%Z, (EmptyString, id)))
  | VNumber n => Some (2, (n, (EmptyString, id)))
  | VString s => Some (3, (0%Z, (s, id)))
  | VObject _ => Some (4, (0%Z, (EmptyString, id)))
  | VUndefined | VFieldDelete => None
  end.

(** The value a document is ordered by: its own identifier for [__name__],
    the named field otherwise. *)
Definition order_value (field : string) (doc : string * object) : option value :=
  if decide (field = "__name__") then Some (VString doc.1)
  else obj_get field doc.2.

Definition doc_key (field : string) (doc : string * object) : option sort_key :=
  v ← order_value field doc; value_key v doc.1.

(** The identifier of a document of the collection [c], from its path. *)
Definition child_id (c p : path) : option string :=
  if decide (take (length c) p = c) then
    match drop (length c) p with
    | [id] => Some id
    | _ => None
    end
  else None.

(** The documents of a collection, each with its identifier. *)
Definition coll_docs (c : path) (m : gmap path object) : list (string * object) :=
  omap (λ pd, (λ id, (id, pd.2)) <$> child_id c pd.1) (map_to_list m).

Record query : Type := mkQuery {
  q_collection : path;
  q_order : string;
  q_limit : option nat
}.

Definition keyed (field : string) (l : list (string * object))
  : list (sort_key * (string * object)) :=
  omap (λ doc, (λ k, (k, doc)) <$> doc_key field doc) l.

Definition by_key : relation (sort_key * (string * object)) :=
  λ x y, key_le x.1 y.1.

Global Instance by_key_dec : RelDecision by_key.
Proof. intros x y. unfold by_key, key_le. apply _. Defined.

(** The snapshot of a query: the documents of the collection that have the
    ordering field, in ascending order of it, ties in the order of their
    identifiers, cut at the limit.  A limit of [0] is no limit: the client
    does not send it. *)
Definition ordered_docs (field : string) (c : path) (m : gmap path object)
  : list (string * object) :=
  (merge_sort by_key (keyed field (coll_docs c m))).*2.

Definition query_docs (q : query) (m : gmap path object) : list (string * object) :=
  let sorted := ordered_docs (q_order q) (q_collection q) m in
  match q_limit q with
  | Some (S n) => take (S n) sorted
  | Some O | None => sorted
  end.

(** [query.get()]. *)
Definition query_get (q : query) : Promise (list (string * object)) :=
  λ w, (Resolved (query_docs q (docs w)), w).

(** ** The operations of [database.ts] *)

(** [db.doc(`transcripts/${id}`).set({ ...transcript }, { merge: true })] *)
Definition updateTranscript (id : string) (transcript : object) : Promise unit :=
  await ref := db_doc ("transcripts/" +:+ id) in
  doc_set_merge ref transcript.

(** [transcript.status!.percent = v] *)
Definition assign_status_percent (v : value) (transcript : object) : object :=
  obj_set "status"
    (VObject (obj_set "percent" v (fields_of (obj_get "status" transcript))))
    transcript.

Definition setProgress (transcriptId : string) (progress : ProgressType) : Promise unit :=
  let transcript := [("status", VObject [("progress", progress_value progress)])] in
  let transcript :=
    if decide (progress = Analysing ∨ progress = Saving) then
      assign_status_percent (VNumber 0) transcript
    else if decide (progress = Done) then
      assign_status_percent VFieldDelete transcript
    else transcript in
  updateTranscript transcriptId transcript.

Definition setPercent (transcriptId : string) (percent : Z) : Promise unit :=
  let transcript := [("status", VObject [("percent", VNumber percent)])] in
  updateTranscript transcriptId transcript.

(** [paragraphId] is the identifier that [db.collection(paragraphsRef).doc()]
    draws. *)
Definition addParagraph (transcriptId : string) (paragraph : object) (percent : Z)
  (paragraphId : string) : Promise unit :=
  let batch := [] in
  let paragraphsRef := "transcripts/" +:+ transcriptId +:+ "/paragraphs" in
  await tt := db_collection paragraphsRef in
  await paragraphReference := db_doc (paragraphsRef +:+ "/" +:+ paragraphId) in
  await batch := batch_create paragraphReference paragraph batch in
  await transcriptReference := db_doc ("transcripts/" +:+ transcriptId) in
  await batch := batch_update transcriptReference ["status"; "percent"] (VNumber percent) batch in
  commit batch.

Definition setDuration (transcriptId : string) (seconds : Z) : Promise unit :=
  let transcript := [("metadata", VObject [("audioDuration", VNumber seconds)])] in
  updateTranscript transcriptId transcript.

(** [Object.keys(o).forEach(key => o[key] === undefined && delete o[key])] *)
Definition strip_undefined (o : object) : object :=
  foldl (λ acc key, if is_undefined (prop acc key) then obj_delete key acc else acc)
        o (obj_keys o).

Section error_record.
(** [serializeError] of the package [serialize-error]: it turns an error
    into a plain object. *)
Variable serializeError : value → object.

Definition errorOccured (transcriptId : string) (error : value) : Promise unit :=
  let serializedError := serializeError error in
  let serializedError := strip_undefined serializedError in
  let transcript := [("status", VObject [("error", VObject serializedError)])] in
  updateTranscript transcriptId transcript.

End error_record.

Definition getParagraphs (transcriptId : string) : Promise (list object) :=
  await coll := db_collection ("transcripts/" +:+ transcriptId +:+ "/paragraphs") in
  await querySnapshot := query_get (mkQuery coll "startTime" None) in
  resolve (foldl (λ paragraphs doc, paragraphs ++ [doc.2]) [] querySnapshot).

(** [doc.data()], as a value. *)
Definition data_value (data : option object) : value :=
  match data with Some o => VObject o | None => VUndefined end.

(** [v.k]: reading a property of [undefined] or [null] throws. *)
Definition member (v : value) (k : string) : Promise value :=
  match v with
  | VUndefined | VNull => reject TypeError
  | VObject o => resolve (prop o k)
  | _ => resolve VUndefined
  end.

Definition getProgress (id : string) : Promise value :=
  await ref := db_doc ("transcripts/" +:+ id) in
  await doc := doc_get ref in
  let transcript := data_value doc in
  await status := member transcript "status" in
  member status "progress".

Definition setPlaybackGsUrl (id : string) (url : string) : Promise unit :=
  let transcript := [("playbackGsUrl", VString url)] in
  updateTranscript id transcript.

Definition getTranscript (transcriptId : string) : Promise value :=
  await ref := db_doc ("transcripts/" +:+ transcriptId) in
  await doc := doc_get ref in
  resolve (data_value doc).

(** One turn of the deletion loop per unit of [turns]: the next one is
    scheduled with [process.nextTick], so the JavaScript stack does not
    grow; a loop that is still running when the turns are used up is
    [Pending]. *)
Fixpoint deleteQueryBatch (turns : nat) (q : query) (batchSize : nat) : Promise unit :=
  match turns with
  | O => λ w, (Pending, w)
  | S turns' =>
      await snapshot := query_get q in
      await numDeleted :=
        (if decide (length snapshot = 0) then resolve 0
         else
           let batch :=
             foldl (λ batch doc, batch_delete (q_collection q ++ [doc.1]) batch)
                   [] snapshot in
           await tt := commit batch in
           resolve (length snapshot)) in
      if decide (numDeleted = 0) then resolve ()
      else deleteQueryBatch turns' q batchSize
  end.

Definition deleteCollection (turns : nat) (collectionPath : string) (batchSize : nat)
  : Promise unit :=
  await collectionRef := db_collection collectionPath in
  let q := mkQuery collectionRef "__name__" (Some batchSize) in
  deleteQueryBatch turns q batchSize.

Definition deleteTranscript (turns : nat) (transcriptId : string) : Promise unit :=
  let paragraphsPath := "/transcripts/" +:+ transcriptId +:+ "/paragraphs" in
  await tt := deleteCollection turns paragraphsPath 10 in
  await ref := db_doc ("transcripts/" +:+ transcriptId) in
  doc_delete ref.

Definition getTranscripts : Promise object :=
  await coll := db_collection "transcripts/" in
  await querySnapshot := query_get (mkQuery coll "__name__" None) in
  resolve (foldl (λ transcripts doc, obj_assign doc.1 (VObject doc.2) transcripts)
                 [] querySnapshot).

(** ** Reading the store *)

(** The fields of a document; none when it does not exist. *)
Definition doc_fields (w : World) (ref : path) : object :=
  default [] (docs w !! ref).

(** The fields of [status] in the transcript [id]. *)
Definition status_fields (w : World) (id : string) : object :=
  fields_of (obj_get "status" (doc_fields w ["transcripts"; id])).

(** The world after a merge write of [data] into the transcript [id]. *)
Definition merged (id : string) (data : object) (w : World) : World :=
  let ref := ["transcripts"; id] in
  mkWorld (<[ref := merge_fields data (doc_fields w ref)]> (docs w))
          (log w ++ [[WSetMerge ref data]]).

(** The fields of [status.error] in the transcript [id]. *)
Definition error_fields (w : World) (id : string) : object :=
  fields_of (obj_get "error" (status_fields w id)).

(** What is left of a property once the [undefined] ones are removed. *)
Definition defined_only (v : option value) : option value :=
  match v with Some VUndefined => None | _ => v end.

(** Ownership: every paragraph document lies under a transcript document
    that exists. *)
Definition owned (m : gmap path object) : Prop :=
  ∀ id pid, is_Some (m !! ["transcripts"; id; "paragraphs"; pid]) →
            is_Some (m !! ["transcripts"; id]).

(** The two writes that [addParagraph] stages. *)
Definition paragraph_batch (id : string) (paragraph : object) (percent : Z)
  (pid : string) : list write :=
  [ WCreate ["transcripts"; id; "paragraphs"; pid] paragraph;
    WUpdate ["transcripts"; id] ["status"; "percent"] (VNumber percent) ].

(** A serializer to try [errorOccured] with: the own properties of the
    error. *)
Definition own_properties (e : value) : object := fields_of (Some e).

(** The order in which a query on [field] returns two documents. *)
Definition doc_le (field : string) : relation (string * object) :=
  λ x y, ∃ kx ky, doc_key field x = Some kx ∧ doc_key field y = Some ky
                  ∧ key_le kx ky.

(** The batch that deletes the documents of a snapshot of the collection
    [c]. *)
Definition delete_batch (c : path) (snapshot : list (string * object)) : list write :=
  (λ doc, WDelete (c ++ [doc.1])) <$> snapshot.

(** The documents without those of a snapshot of the collection [c]. *)
Definition remove_docs (c : path) (snapshot : list (string * object))
  (m : gmap path object) : gmap path object :=
  foldl (λ m doc, delete (c ++ [doc.1]) m) m snapshot.

(** A list cut into pieces of [size] elements, the last one possibly
    shorter; [n] bounds the number of pieces. *)
Fixpoint chunks {A} (n size : nat) (l : list A) : list (list A) :=
  match n with
  | O => []
  | S n' =>
      match l with
      | [] => []
      | _ => take size l :: chunks n' size (drop size l)
      end
  end.

(** The number of documents in the collection [c]. *)
Definition remaining (c : path) (w : World) : nat :=
  length (coll_docs c (docs w)).

(** The documents after the documents of [l] are put into the collection
    [c], one after the other. *)
Definition insert_docs (c : path) (l : list (string * object))
  (m : gmap path object) : gmap path object :=
  foldl (λ m doc, <[c ++ [doc.1] := doc.2]> m) m l.

(** The strings that [db.collection] takes for the path of a collection. *)
Definition collection_path (s : string) : Prop :=
  double_slash s = false ∧ Nat.odd (length (split_path s)) = true.

(** The order in which JavaScript lists two property names: an array index
    before a name that is none, two indices by their numbers; two other
    names, created in the order of the identifiers, by that order. *)
Definition js_key_le (k1 k2 : string) : Prop :=
  match array_index k1, array_index k2 with
  | Some n1, Some n2 => (n1 ≤ n2)%N
  | Some _, None => True
  | None, Some _ => False
  | None, None => String.le k1 k2
  end.

(** What the client refuses in the data of a merge write. *)
Definition refused (data : object) : bool :=
  obj_has_undefined data || obj_has_empty_name data.

(** The fields of [metadata] in the transcript [id]. *)
Definition metadata_fields (w : World) (id : string) : object :=
  fields_of (obj_get "metadata" (doc_fields w ["transcripts"; id])).

(** A transcript with twelve paragraphs: more than one batch of ten. *)
Definition long_world : World :=
  mkWorld
    (insert_docs ["transcripts"; "t1"; "paragraphs"]
       ((λ pid, (pid, [("text", VString pid)]))
          <$> ["a"; "b"; "c"; "d"; "e"; "f"; "g"; "h"; "i"; "j"; "k"; "l"])
       {[ ["transcripts"; "t1"] := [("status", VObject [("percent", VNumber 90)])] ]})
    [].

(** A store to try the operations on: a transcript with five paragraphs,
    one of them without a start time, and another transcript with one. *)
Definition example_world : World :=
  mkWorld
    (list_to_map
       [ (["transcripts"; "t1"],
          [("status", VObject [("progress", VString "TRANSCRIBING");
                               ("percent", VNumber 5)]);
           ("metadata", VObject [("audioDuration", VNumber 61)])]);
         (["transcripts"; "t1"; "paragraphs"; "b"],
          [("startTime", VNumber 3); ("text", VString "third")]);
         (["transcripts"; "t1"; "paragraphs"; "a"],
          [("startTime", VNumber 3); ("text", VString "second")]);
         (["transcripts"; "t1"; "paragraphs"; "c"], [("startTime", VNumber 1)]);
         (["transcripts"; "t1"; "paragraphs"; "d"], [("startTime", VNumber 7)]);
         (["transcripts"; "t1"; "paragraphs"; "e"], [("text", VString "no time")]);
         (["transcripts"; "t2"],
          [("status", VObject [("progress", VString "DONE")])]);
         (["transcripts"; "t2"; "paragraphs"; "e"], [("startTime", VNumber 0)]) ])
    [].

(** * Properties *)

(** ** Objects *)

Lemma obj_get_set_eq k v o : obj_get k (obj_set k v o) = Some v.
Proof.
  induction o as [|[k' v'] o IH]; simpl.
  - by rewrite decide_True.
  - destruct (decide (k' = k)) as [->|Hne]; simpl.
    + by rewrite decide_True.
    + by rewrite decide_False.
Qed.

Lemma obj_get_set_ne k k' v o : k ≠ k' → obj_get k' (obj_set k v o) = obj_get k' o.
Proof.
  intros Hne. induction o as [|[k0 v0] o IH]; simpl.
  - by rewrite decide_False.
  - destruct (decide (k0 = k)) as [->|Hk0]; simpl.
    + by rewrite !decide_False.
    + destruct (decide (k0 = k')); [done|apply IH].
Qed.

Lemma obj_get_delete_eq k o : obj_get k (obj_delete k o) = None.
Proof.
  induction o as [|[k' v'] o IH]; simpl; [done|].
  destruct (decide (k' = k)); simpl; [done|]. by rewrite decide_False.
Qed.

Lemma obj_get_delete_ne k k' o : k ≠ k' → obj_get k' (obj_delete k o) = obj_get k' o.
Proof.
  intros Hne. induction o as [|[k0 v0] o IH]; simpl; [done|].
  destruct (decide (k0 = k)) as [->|Hk0]; simpl.
  - by rewrite decide_False.
  - destruct (decide (k0 = k')); [done|apply IH].
Qed.

Lemma obj_set_set k v v' o : obj_set k v (obj_set k v' o) = obj_set k v o.
Proof.
  induction o as [|[k0 v0] o IH]; simpl.
  - by rewrite decide_True.
  - destruct (decide (k0 = k)) as [->|Hk0]; simpl.
    + by rewrite decide_True.
    + rewrite decide_False by done. by rewrite IH.
Qed.

Lemma obj_get_None k o : obj_get k o = None ↔ k ∉ obj_keys o.
Proof.
  unfold obj_keys. induction o as [|[k0 v0] o IH]; simpl.
  - split; [intros _; apply not_elem_of_nil|done].
  - rewrite not_elem_of_cons. destruct (decide (k0 = k)) as [->|Hk0].
    + split; [done|]. by intros [? _].
    + rewrite IH. split; [intros ?; split; [congruence|done]|by intros [_ ?]].
Qed.

Lemma obj_get_elem_of k v o : NoDup (obj_keys o) → (k, v) ∈ o → obj_get k o = Some v.
Proof.
  unfold obj_keys. induction o as [|[k0 v0] o IH]; simpl.
  - intros _ H. by apply elem_of_nil in H.
  - rewrite NoDup_cons. intros [Hk0 Hnd] Hin.
    apply elem_of_cons in Hin as [[= -> ->]|Hin]; [by rewrite decide_True|].
    rewrite decide_False; [by apply IH|].
    intros ->. apply Hk0. apply list_elem_of_fmap. by exists (k, v).
Qed.

(** Merge writes, one field at a time. *)
Lemma merge_fields_nil old : merge_fields [] old = old.
Proof. reflexivity. Qed.

Lemma merge_fields_cons k v data old :
  merge_fields ((k, v) :: data) old = merge_fields data (merge_field k v old).
Proof. unfold merge_fields, merge_field. simpl. by destruct v as [| | | | |[|f sub]|]. Qed.

Lemma merge_field_other k k' v o : k ≠ k' → obj_get k' (merge_field k v o) = obj_get k' o.
Proof.
  intros Hne. unfold merge_field.
  destruct v as [| | | | |[|f sub]|];
    auto using obj_get_set_ne, obj_get_delete_ne.
Qed.

(** A merge write leaves the fields it does not name as they are. *)
Lemma merge_fields_other k data old :
  k ∉ obj_keys data → obj_get k (merge_fields data old) = obj_get k old.
Proof.
  revert old. induction data as [|[k0 v0] data IH]; intros old Hk; [done|].
  unfold obj_keys in *. simpl in Hk. apply not_elem_of_cons in Hk as [Hne Hk].
  rewrite merge_fields_cons, IH by done. by apply merge_field_other.
Qed.

(** ** Paths *)

Lemma string_app_cons c (a b : string) : String c a +:+ b = String c (a +:+ b).
Proof. reflexivity. Qed.

Lemma string_app_assoc (a b c : string) : (a +:+ b) +:+ c = a +:+ (b +:+ c).
Proof. induction a as [|x a IH]; [done|]. by rewrite !string_app_cons, IH. Qed.

Lemma string_app_nil_r (a : string) : a +:+ EmptyString = a.
Proof. induction a as [|x a IH]; [done|]. by rewrite string_app_cons, IH. Qed.

Lemma segments_cons_slash s : segments (String "/" s) = EmptyString :: segments s.
Proof. reflexivity. Qed.

Lemma segments_not_nil s : segments s ≠ [].
Proof.
  induction s as [|c s IH]; simpl; [done|].
  destruct (decide (c = "/"%char)); [done|]. by destruct (segments s).
Qed.

(** A piece without a slash joins the first segment of what follows. *)
Lemma segments_app a b :
  no_slash a = true →
  segments (a +:+ b) = (a +:+ hd EmptyString (segments b)) :: tl (segments b).
Proof.
  induction a as [|c a IH]; simpl; intros Ha.
  - change (EmptyString +:+ b) with b. pose proof (segments_not_nil b).
    by destruct (segments b).
  - destruct (decide (c = "/"%char)); [done|].
    rewrite !string_app_cons. simpl. by rewrite IH.
Qed.

Lemma segments_id_slash id s :
  no_slash id = true → segments (id +:+ String "/" s) = id :: segments s.
Proof.
  intros Hid. rewrite segments_app by done. rewrite segments_cons_slash. simpl.
  by rewrite string_app_nil_r.
Qed.

Lemma segments_id id : no_slash id = true → segments id = [id].
Proof.
  intros Hid. rewrite <-(string_app_nil_r id) at 1.
  rewrite segments_app by done. simpl. by rewrite string_app_nil_r.
Qed.

Lemma split_path_transcript id :
  valid_id id → split_path ("transcripts/" +:+ id) = ["transcripts"; id].
Proof.
  intros [Hne Hid]. unfold split_path.
  change ("transcripts/" +:+ id) with ("transcripts" +:+ String "/" id).
  rewrite segments_id_slash, segments_id by done.
  rewrite !filter_cons, filter_nil. by rewrite !decide_True.
Qed.

Lemma split_path_paragraphs id :
  valid_id id →
  split_path ("transcripts/" +:+ id +:+ "/paragraphs") = ["transcripts"; id; "paragraphs"].
Proof.
  intros [Hne Hid]. unfold split_path.
  change ("transcripts/" +:+ id +:+ "/paragraphs")
    with ("transcripts" +:+ String "/" (id +:+ String "/" "paragraphs")).
  rewrite !segments_id_slash, segments_id by done.
  rewrite !filter_cons, filter_nil. by rewrite !decide_True.
Qed.

Lemma split_path_paragraphs_slash id :
  valid_id id →
  split_path ("/transcripts/" +:+ id +:+ "/paragraphs") = ["transcripts"; id; "paragraphs"].
Proof.
  intros [Hne Hid]. unfold split_path.
  change ("/transcripts/" +:+ id +:+ "/paragraphs")
    with (String "/" ("transcripts" +:+ String "/" (id +:+ String "/" "paragraphs"))).
  rewrite segments_cons_slash, !segments_id_slash, segments_id by done.
  rewrite !filter_cons, filter_nil. rewrite decide_False by (by intros []).
  by rewrite !decide_True.
Qed.

Lemma split_path_paragraph id pid :
  valid_id id → valid_id pid →
  split_path (("transcripts/" +:+ id +:+ "/paragraphs") +:+ "/" +:+ pid)
  = ["transcripts"; id; "paragraphs"; pid].
Proof.
  intros [Hne Hid] [Hpne Hpid]. unfold split_path.
  rewrite !string_app_assoc.
  change ("transcripts/" +:+ id +:+ "/paragraphs" +:+ "/" +:+ pid)
    with ("transcripts" +:+ String "/" (id +:+ String "/" ("paragraphs" +:+ String "/" pid))).
  rewrite !segments_id_slash, segments_id by done.
  rewrite !filter_cons, filter_nil. by rewrite !decide_True.
Qed.

Lemma double_slash_cons c s :
  c ≠ "/"%char → double_slash (String c s) = double_slash s.
Proof.
  intros Hc. cbn [double_slash]. destruct s as [|c' s]; [done|].
  by rewrite bool_decide_eq_false_2 by (by intros [? _]).
Qed.

Lemma double_slash_slash c s :
  c ≠ "/"%char → double_slash (String "/" (String c s)) = double_slash (String c s).
Proof.
  intros Hc. cbn [double_slash].
  by rewrite bool_decide_eq_false_2 by (by intros [_ ?]).
Qed.

Lemma double_slash_app a b :
  no_slash a = true → a ≠ EmptyString ∨ b = EmptyString ∨ no_slash b = true →
  double_slash (a +:+ b) = double_slash b.
Proof.
  induction a as [|c a IH]; intros Ha Hab; [done|].
  simpl in Ha. destruct (decide (c = "/"%char)); [done|].
  rewrite string_app_cons, double_slash_cons by done.
  destruct a as [|c' a]; [done|]. apply IH; [done|]. by left.
Qed.

Lemma double_slash_id id : no_slash id = true → double_slash id = false.
Proof.
  intros Hid. rewrite <-(string_app_nil_r id).
  rewrite double_slash_app; [done..|]. right. by left.
Qed.

Lemma double_slash_slash_id id s :
  valid_id id → double_slash (String "/" (id +:+ s)) = double_slash s.
Proof.
  intros [Hne Hid]. destruct id as [|c id]; [done|].
  pose proof Hid as Hid'. simpl in Hid'.
  destruct (decide (c = "/"%char)); [done|].
  rewrite string_app_cons, double_slash_slash by done.
  rewrite <-string_app_cons. apply double_slash_app; [done|]. by left.
Qed.

Lemma double_slash_last id :
  valid_id id → double_slash (String "/" id) = false.
Proof.
  intros Hid. rewrite <-(string_app_nil_r id). by rewrite double_slash_slash_id.
Qed.

Lemma double_slash_transcript id :
  valid_id id → double_slash ("transcripts/" +:+ id) = false.
Proof.
  intros Hid.
  change ("transcripts/" +:+ id) with ("transcripts" +:+ String "/" id).
  rewrite double_slash_app by first [done|by left]. by apply double_slash_last.
Qed.

Lemma double_slash_paragraphs id :
  valid_id id → double_slash ("transcripts/" +:+ id +:+ "/paragraphs") = false.
Proof.
  intros Hid.
  change ("transcripts/" +:+ id +:+ "/paragraphs")
    with ("transcripts" +:+ String "/" (id +:+ "/paragraphs")).
  rewrite double_slash_app by first [done|by left]. by rewrite double_slash_slash_id.
Qed.

Lemma double_slash_paragraphs_slash id :
  valid_id id → double_slash ("/transcripts/" +:+ id +:+ "/paragraphs") = false.
Proof.
  intros Hid.
  change ("/transcripts/" +:+ id +:+ "/paragraphs")
    with (String "/" ("transcripts" +:+ String "/" (id +:+ "/paragraphs"))).
  rewrite double_slash_slash_id by done.
  by rewrite double_slash_slash_id.
Qed.

Lemma double_slash_paragraph id pid :
  valid_id id → valid_id pid →
  double_slash (("transcripts/" +:+ id +:+ "/paragraphs") +:+ "/" +:+ pid) = false.
Proof.
  intros Hid Hpid. rewrite !string_app_assoc.
  change ("transcripts/" +:+ id +:+ "/paragraphs" +:+ "/" +:+ pid)
    with ("transcripts" +:+ String "/" (id +:+ "/paragraphs" +:+ String "/" pid)).
  rewrite double_slash_app by first [done|by left]. rewrite double_slash_slash_id by done.
  change ("/paragraphs" +:+ String "/" pid)
    with (String "/" ("paragraphs" +:+ String "/" pid)).
  rewrite double_slash_slash_id by done. by apply double_slash_last.
Qed.

(** The references the operations compute, for well-formed identifiers. *)
Lemma db_doc_transcript id w :
  valid_id id → db_doc ("transcripts/" +:+ id) w = (Resolved ["transcripts"; id], w).
Proof.
  intros Hid. unfold db_doc.
  by rewrite double_slash_transcript, split_path_transcript.
Qed.

Lemma db_collection_paragraphs id w :
  valid_id id →
  db_collection ("transcripts/" +:+ id +:+ "/paragraphs") w
  = (Resolved ["transcripts"; id; "paragraphs"], w).
Proof.
  intros Hid. unfold db_collection.
  by rewrite double_slash_paragraphs, split_path_paragraphs.
Qed.

Lemma db_doc_paragraph id pid w :
  valid_id id → valid_id pid →
  db_doc (("transcripts/" +:+ id +:+ "/paragraphs") +:+ "/" +:+ pid) w
  = (Resolved ["transcripts"; id; "paragraphs"; pid], w).
Proof.
  intros Hid Hpid. unfold db_doc.
  by rewrite double_slash_paragraph, split_path_paragraph.
Qed.

Lemma updateTranscript_run id data w :
  valid_id id → refused data = false →
  updateTranscript id data w = (Resolved (), merged id data w).
Proof.
  intros Hid Hdata. unfold updateTranscript, bind. unfold refused in Hdata.
  rewrite db_doc_transcript by done. unfold doc_set_merge. by rewrite Hdata.
Qed.

Lemma updateTranscript_refused id data w :
  valid_id id → refused data = true →
  updateTranscript id data w = (Rejected InvalidArgument, w).
Proof.
  intros Hid Hdata. unfold updateTranscript, bind. unfold refused in Hdata.
  rewrite db_doc_transcript by done. unfold doc_set_merge. by rewrite Hdata.
Qed.

Lemma doc_fields_merged id data w :
  doc_fields (merged id data w) ["transcripts"; id]
  = merge_fields data (doc_fields w ["transcripts"; id]).
Proof. unfold doc_fields at 1, merged. simpl. by rewrite lookup_insert_eq. Qed.

Lemma docs_merged_other id data w p :
  p ≠ ["transcripts"; id] → docs (merged id data w) !! p = docs w !! p.
Proof. intros Hp. unfold merged. simpl. by rewrite lookup_insert_ne. Qed.

(** A merge write that names [status] only keeps every other field. *)
Lemma merged_status_other id sub w k :
  k ≠ "status" →
  obj_get k (doc_fields (merged id [("status", sub)] w) ["transcripts"; id])
  = obj_get k (doc_fields w ["transcripts"; id]).
Proof.
  intros Hk. rewrite doc_fields_merged, merge_fields_cons, merge_fields_nil.
  by apply merge_field_other.
Qed.

(** The [status] that a merge write of [{status: {f, ...}}] leaves. *)
Lemma status_fields_merged id f sub w :
  status_fields (merged id [("status", VObject (f :: sub))] w) id
  = merge_fields (f :: sub) (status_fields w id).
Proof.
  unfold status_fields at 1.
  rewrite doc_fields_merged, merge_fields_cons, merge_fields_nil.
  unfold merge_field. by rewrite obj_get_set_eq.
Qed.

(** The record that [setProgress] writes. *)
Lemma setProgress_payload id newState :
  ∃ sub, setProgress id newState
         = updateTranscript id
             [("status", VObject (("progress", progress_value newState) :: sub))]
    ∧ sub = match newState with
            | Analysing | Saving => [("percent", VNumber 0)]
            | Done => [("percent", VFieldDelete)]
            | _ => []
            end.
Proof. unfold setProgress. destruct newState; eexists; split; reflexivity. Qed.

(** C1: [setProgress(id, newState)] writes [status.progress = newState];
    for [Analysing] and [Saving] it also sets [status.percent] to 0, for
    [Done] it removes [status.percent], for the other states it leaves
    [status.percent] as it was; and, the write being a merge, every other
    field of [status], every other field of the transcript and every other
    document stay as they were. *)
Theorem setProgress_spec (id : string) (newState : ProgressType) (w : World) :
  valid_id id →
  ∃ w', setProgress id newState w = (Resolved (), w')
    ∧ is_Some (docs w' !! ["transcripts"; id])
    ∧ obj_get "progress" (status_fields w' id) = Some (progress_value newState)
    ∧ obj_get "percent" (status_fields w' id)
      = match newState with
        | Analysing | Saving => Some (VNumber 0)
        | Done => None
        | _ => obj_get "percent" (status_fields w id)
        end
    ∧ (∀ k, k ≠ "progress" → k ≠ "percent" →
         obj_get k (status_fields w' id) = obj_get k (status_fields w id))
    ∧ (∀ k, k ≠ "status" →
         obj_get k (doc_fields w' ["transcripts"; id])
         = obj_get k (doc_fields w ["transcripts"; id]))
    ∧ (∀ ref, ref ≠ ["transcripts"; id] → docs w' !! ref = docs w !! ref).
Proof.
  intros Hid. destruct (setProgress_payload id newState) as (sub & -> & Hsub).
  exists (merged id [("status", VObject (("progress", progress_value newState) :: sub))] w).
  split.
  { apply updateTranscript_run; [done|]. subst sub. by destruct newState. }
  split.
  { unfold merged. simpl. rewrite lookup_insert_eq. by eexists. }
  rewrite status_fields_merged, merge_fields_cons.
  repeat split.
  - rewrite merge_fields_other.
    + unfold merge_field, progress_value. apply obj_get_set_eq.
    + subst sub. destruct newState; unfold obj_keys; simpl;
        rewrite ?not_elem_of_cons; repeat split; try done; apply not_elem_of_nil.
  - subst sub. destruct newState;
      rewrite ?merge_fields_cons, ?merge_fields_nil; unfold merge_field at 1;
      rewrite ?obj_get_set_eq, ?obj_get_delete_eq; try done;
      unfold merge_field, progress_value; by rewrite obj_get_set_ne.
  - intros k Hk1 Hk2. rewrite merge_fields_other.
    + by apply merge_field_other.
    + subst sub. destruct newState; unfold obj_keys; simpl;
        rewrite ?not_elem_of_cons; repeat split; try done; apply not_elem_of_nil.
  - intros k Hk. by apply merged_status_other.
  - intros ref Href. by apply docs_merged_other.
Qed.

Lemma setProgress_spec_witness :
  ∃ w', setProgress "t1" Done example_world = (Resolved (), w')
    ∧ is_Some (docs w' !! ["transcripts"; "t1"])
    ∧ obj_get "progress" (status_fields w' "t1") = Some (progress_value Done)
    ∧ obj_get "percent" (status_fields w' "t1") = None
    ∧ (∀ k, k ≠ "progress" → k ≠ "percent" →
         obj_get k (status_fields w' "t1") = obj_get k (status_fields example_world "t1"))
    ∧ (∀ k, k ≠ "status" →
         obj_get k (doc_fields w' ["transcripts"; "t1"])
         = obj_get k (doc_fields example_world ["transcripts"; "t1"]))
    ∧ (∀ ref, ref ≠ ["transcripts"; "t1"] → docs w' !! ref = docs example_world !! ref).
Proof. apply (setProgress_spec "t1" Done example_world). by vm_compute. Defined.

(** ** Idempotence of [setPercent] *)

Lemma merged_twice id k n w :
  let data := [("status", VObject [(k, VNumber n)])] in
  docs (merged id data (merged id data w)) = docs (merged id data w).
Proof.
  intros data. unfold merged at 1. cbn [docs].
  rewrite doc_fields_merged. unfold merged. cbn [docs].
  rewrite insert_insert_eq. f_equal. subst data.
  rewrite !merge_fields_cons, !merge_fields_nil. unfold merge_field.
  rewrite obj_get_set_eq. cbn [fields_of].
  rewrite !merge_fields_cons, !merge_fields_nil. unfold merge_field.
  by rewrite !obj_set_set.
Qed.

(** C8: [setPercent] is idempotent: a second call with the same percent
    leaves the documents as the first call left them. *)
Theorem setPercent_idempotent (id : string) (percent : Z) (w : World) :
  valid_id id →
  ∃ w1 w2, setPercent id percent w = (Resolved (), w1)
    ∧ setPercent id percent w1 = (Resolved (), w2)
    ∧ docs w2 = docs w1.
Proof.
  intros Hid. unfold setPercent.
  eexists _, _. split; [by apply updateTranscript_run|].
  split; [by apply updateTranscript_run|]. apply merged_twice.
Qed.

Lemma setPercent_idempotent_witness :
  ∃ w1 w2, setPercent "t1" 50 example_world = (Resolved (), w1)
    ∧ setPercent "t1" 50 w1 = (Resolved (), w2)
    ∧ docs w2 = docs w1.
Proof. apply (setPercent_idempotent "t1" 50 example_world). by vm_compute. Defined.

(** ** Reading the progress of a missing transcript *)

(** C10: for a transcript whose document does not exist, [getProgress]
    returns neither a progress nor a not-found result: reading [status] of
    the absent record throws, and the promise is rejected with that error;
    and there are calls of [getProgress] that end so. *)
Theorem getProgress_missing (id : string) (w : World) :
  valid_id id →
  docs w !! ["transcripts"; id] = None →
  getProgress id w = (Rejected TypeError, w)
  ∧ (∀ v w', getProgress id w ≠ (Resolved v, w'))
  ∧ (∃ id0 w0, getProgress id0 w0 = (Rejected TypeError, w0)).
Proof.
  intros Hid Hnone.
  assert (getProgress id w = (Rejected TypeError, w)) as Hrun.
  { unfold getProgress, bind.
    rewrite db_doc_transcript by done. cbv beta iota. unfold doc_get.
    by rewrite Hnone. }
  split; [done|]. split; [intros v w'; by rewrite Hrun|]. by exists id, w.
Qed.

Lemma getProgress_missing_witness :
  docs example_world !! ["transcripts"; "t3"] = None
  ∧ getProgress "t3" example_world = (Rejected TypeError, example_world)
  ∧ (∀ v w', getProgress "t3" example_world ≠ (Resolved v, w')).
Proof.
  destruct (getProgress_missing "t3" example_world) as (Hrun & Hnever & _);
    [by vm_compute..|].
  split; [vm_compute; reflexivity|]. split; [exact Hrun|exact Hnever].
Defined.

(** ** Recording an error *)

Lemma defined_only_idemp v : defined_only (defined_only v) = defined_only v.
Proof. by destruct v as [[]|]. Qed.

Lemma obj_get_strip_step k key acc :
  obj_get k (if is_undefined (prop acc key) then obj_delete key acc else acc)
  = if decide (k = key) then defined_only (obj_get k acc) else obj_get k acc.
Proof.
  unfold prop. destruct (decide (k = key)) as [->|Hne].
  - destruct (obj_get key acc) as [v|] eqn:Hget; simpl.
    + destruct v; simpl; rewrite ?obj_get_delete_eq, ?Hget; done.
    + by rewrite obj_get_delete_eq.
  - destruct (is_undefined _); [|done]. by rewrite obj_get_delete_ne.
Qed.

Lemma obj_get_strip_fold k keys acc :
  obj_get k (foldl (λ acc key,
                      if is_undefined (prop acc key) then obj_delete key acc else acc)
                   acc keys)
  = if decide (k ∈ keys) then defined_only (obj_get k acc) else obj_get k acc.
Proof.
  revert acc. induction keys as [|key keys IH]; intros acc.
  - cbn [foldl]. case_decide as Hin; [by apply elem_of_nil in Hin|done].
  - cbn [foldl]. rewrite IH, obj_get_strip_step.
    destruct (decide (k = key)) as [->|Hne].
    + rewrite (decide_True (P := key ∈ key :: keys)) by left.
      case_decide; [apply defined_only_idemp|done].
    + destruct (decide (k ∈ keys)) as [Hin|Hnin].
      * by rewrite decide_True by (by right).
      * rewrite decide_False; [done|]. rewrite not_elem_of_cons. done.
Qed.

(** Stripping removes exactly the properties that are [undefined]. *)
Lemma obj_get_strip_undefined k o :
  obj_get k (strip_undefined o) = defined_only (obj_get k o).
Proof.
  unfold strip_undefined. rewrite obj_get_strip_fold.
  destruct (decide (k ∈ obj_keys o)) as [Hin|Hnin]; [done|].
  apply obj_get_None in Hnin. by rewrite Hnin.
Qed.

Lemma obj_delete_sublist k o : obj_delete k o `sublist_of` o.
Proof.
  induction o as [|[k' v'] o IH]; simpl; [done|].
  destruct (decide (k' = k)); by constructor.
Qed.

Lemma strip_undefined_sublist o : strip_undefined o `sublist_of` o.
Proof.
  unfold strip_undefined. generalize (obj_keys o) as keys. intros keys.
  induction keys as [|key keys IH] using rev_ind; [done|].
  rewrite foldl_snoc. destruct (is_undefined _); [|done].
  etrans; [apply obj_delete_sublist|done].
Qed.

Lemma has_undefined_fields o :
  has_undefined (VObject o) = false ↔ Forall (λ kv, has_undefined kv.2 = false) o.
Proof.
  induction o as [|[k v] o IH].
  - split; [constructor|done].
  - rewrite Forall_cons. rewrite <-IH. simpl. rewrite orb_false_iff. done.
Qed.

Lemma NoDup_strip_undefined o :
  NoDup (obj_keys o) → NoDup (obj_keys (strip_undefined o)).
Proof.
  intros Hnd. unfold obj_keys in *.
  eapply sublist_NoDup; [done|apply fmap_sublist, strip_undefined_sublist].
Qed.

(** What is left after stripping: the properties that are not
    [undefined], with their values. *)
Lemma elem_of_strip_undefined o k v :
  NoDup (obj_keys o) →
  (k, v) ∈ strip_undefined o → obj_get k o = Some v ∧ v ≠ VUndefined.
Proof.
  intros Hnd Hin. apply obj_get_elem_of in Hin; [|by apply NoDup_strip_undefined].
  rewrite obj_get_strip_undefined in Hin.
  destruct (obj_get k o) as [v'|]; [|done]. by destruct v'; simplify_eq/=.
Qed.

(** When [undefined] occurs in a record only as the value of its own
    properties, nothing [undefined] is left after stripping. *)
Lemma strip_undefined_storable o :
  NoDup (obj_keys o) →
  (∀ k v, obj_get k o = Some v → v ≠ VUndefined → has_undefined v = false) →
  obj_has_undefined (strip_undefined o) = false.
Proof.
  intros Hnd Hdeep. apply has_undefined_fields, Forall_forall. intros [k v] Hin.
  apply elem_of_strip_undefined in Hin as [Hget Hv]; [|done]. by eapply Hdeep.
Qed.

Lemma refused_error_record o :
  refused [("status", VObject [("error", VObject o)])] = refused o.
Proof.
  unfold refused, obj_has_undefined, obj_has_empty_name.
  cbn [has_undefined has_empty_name]. by rewrite !orb_false_r.
Qed.

Lemma has_empty_name_fields o :
  has_empty_name (VObject o) = false
  ↔ Forall (λ kv, kv.1 ≠ EmptyString ∧ has_empty_name kv.2 = false) o.
Proof.
  induction o as [|[k v] o IH].
  - split; [constructor|done].
  - rewrite Forall_cons. rewrite <-IH. cbn [has_empty_name fst snd].
    rewrite !orb_false_iff, bool_decide_eq_false. tauto.
Qed.

(** Stripping brings no empty name in. *)
Lemma strip_undefined_names o :
  obj_has_empty_name o = false → obj_has_empty_name (strip_undefined o) = false.
Proof.
  unfold obj_has_empty_name. rewrite !has_empty_name_fields, !Forall_forall.
  intros Hall kv Hin. apply Hall.
  eapply elem_of_sublist; [done|apply strip_undefined_sublist].
Qed.

Lemma refused_false data :
  refused data = false ↔ obj_has_undefined data = false ∧ obj_has_empty_name data = false.
Proof. unfold refused. apply orb_false_iff. Qed.

(** C6, as amended: [errorOccured] serializes the error into a plain record
    and removes every property of it whose value is [undefined], keeping
    the others.  When the record that is left still holds [undefined]
    further down, or a property named by the empty string, the client
    refuses it: the call is rejected and nothing is written.  Otherwise the
    call resolves with one merge write of the record to [status.error]; the
    write stores nothing under a removed key (no [null] either), so that
    [status.error.foo] is then what it was before the call, absent unless an
    earlier error left it there, and absent in any case when nothing is left
    of the record; [status.progress], the other fields and the other
    documents are as before.  A record in which [undefined] is the value of
    own properties only, and no name is empty, is not refused. *)
Theorem errorOccured_spec (serializeError : value → object)
    (id : string) (error : value) (w : World) :
  valid_id id →
  NoDup (obj_keys (serializeError error)) →
  let record := serializeError error in
  let written := strip_undefined record in
  let payload := [("status", VObject [("error", VObject written)])] in
  (∀ k, obj_get k written = defined_only (obj_get k record))
  ∧ (∀ k v, (k, v) ∈ written → v ≠ VUndefined)
  ∧ (∀ foo, obj_get foo record = Some VUndefined → obj_get foo written = None)
  ∧ (refused written = true →
       errorOccured serializeError id error w = (Rejected InvalidArgument, w))
  ∧ (refused written = false →
       ∃ w', errorOccured serializeError id error w = (Resolved (), w')
         ∧ log w' = log w ++ [[WSetMerge ["transcripts"; id] payload]]
         ∧ error_fields w' id
           = match written with
             | [] => []
             | _ => merge_fields written (error_fields w id)
             end
         ∧ (∀ foo, obj_get foo record = Some VUndefined →
              obj_get foo (error_fields w' id)
              = match written with
                | [] => None
                | _ => obj_get foo (error_fields w id)
                end)
         ∧ obj_get "progress" (status_fields w' id)
           = obj_get "progress" (status_fields w id)
         ∧ (∀ k, k ≠ "error" →
              obj_get k (status_fields w' id) = obj_get k (status_fields w id))
         ∧ (∀ k, k ≠ "status" →
              obj_get k (doc_fields w' ["transcripts"; id])
              = obj_get k (doc_fields w ["transcripts"; id]))
         ∧ (∀ ref, ref ≠ ["transcripts"; id] → docs w' !! ref = docs w !! ref))
  ∧ ((∀ k v, obj_get k record = Some v → v ≠ VUndefined →
             has_undefined v = false) →
     obj_has_empty_name record = false →
     refused written = false).
Proof.
  intros Hid Hnd record written payload.
  assert (∀ foo, obj_get foo record = Some VUndefined →
                 obj_get foo written = None) as Hgone.
  { intros foo Hfoo. subst written. by rewrite obj_get_strip_undefined, Hfoo. }
  split; [intros k; apply obj_get_strip_undefined|].
  split; [intros k v Hin; by apply (elem_of_strip_undefined record k v)|].
  split; [done|].
  unfold errorOccured. fold record written payload.
  split.
  { intros Hbad. apply updateTranscript_refused; [done|].
    subst payload. by rewrite refused_error_record. }
  split.
  2: { intros Hdeep Hnames. apply refused_false.
       split; [by apply strip_undefined_storable|by apply strip_undefined_names]. }
  intros Hgood. exists (merged id payload w).
  split.
  { apply updateTranscript_run; [done|]. subst payload.
    by rewrite refused_error_record. }
  assert (error_fields (merged id payload w) id
          = match written with
            | [] => []
            | _ => merge_fields written (error_fields w id)
            end) as Herr.
  { unfold error_fields. subst payload. rewrite status_fields_merged.
    rewrite merge_fields_cons, merge_fields_nil. unfold merge_field.
    destruct written; by rewrite obj_get_set_eq. }
  assert (∀ k, k ≠ "error" →
            obj_get k (status_fields (merged id payload w) id)
            = obj_get k (status_fields w id)) as Hother.
  { intros k Hk. subst payload.
    rewrite status_fields_merged, merge_fields_cons, merge_fields_nil.
    by apply merge_field_other. }
  split; [done|]. split; [done|]. split.
  { intros foo Hfoo. rewrite Herr. destruct written as [|f rest] eqn:Hw; [done|].
    apply merge_fields_other. apply obj_get_None. by apply Hgone. }
  split; [by apply Hother|]. split; [done|].
  split; [intros k Hk; by apply merged_status_other|].
  intros ref Href. by apply docs_merged_other.
Qed.

Lemma errorOccured_spec_witness :
  let error := VObject [("name", VString "Error"); ("foo", VUndefined);
                        ("message", VString "boom")] in
  ∃ w', errorOccured own_properties "t1" error example_world = (Resolved (), w')
    ∧ error_fields w' "t1" = [("name", VString "Error"); ("message", VString "boom")]
    ∧ obj_get "foo" (error_fields w' "t1") = None
    ∧ obj_get "progress" (status_fields w' "t1") = Some (VString "TRANSCRIBING").
Proof.
  intros error.
  destruct (errorOccured_spec own_properties "t1" error example_world)
    as (_ & _ & _ & _ & Hok & _).
  - by vm_compute.
  - by apply (bool_decide_unpack _); vm_compute.
  - destruct Hok as (w' & Hrun & _ & Herr & _ & Hprogress & _); [reflexivity|].
    exists w'. split; [exact Hrun|]. split; [by rewrite Herr|].
    split; [by rewrite Herr|by rewrite Hprogress].
Defined.

(** C6, as the claim words it, fails on two counts.  An earlier error left
    [status.error.foo]; the next error has [foo] undefined, and after it is
    recorded the stored record still holds the earlier [foo].  And an error
    with [undefined] below its own properties is not written at all: the
    call is rejected, and [status.error] stays empty. *)
Lemma errorOccured_counterexample :
  let first := VObject [("message", VString "first"); ("foo", VString "old")] in
  let second := VObject [("message", VString "second"); ("foo", VUndefined)] in
  let nested := VObject [("message", VString "boom");
                         ("details", VObject [("reason", VUndefined)])] in
  let r1 := errorOccured own_properties "t1" first example_world in
  let r2 := errorOccured own_properties "t1" second r1.2 in
  (r1.1 = Resolved ()
   ∧ r2.1 = Resolved ()
   ∧ obj_get "foo" (error_fields r2.2 "t1") = Some (VString "old"))
  ∧ errorOccured own_properties "t1" nested example_world
    = (Rejected InvalidArgument, example_world)
  ∧ error_fields example_world "t1" = [].
Proof. vm_compute. repeat split; reflexivity. Qed.

(** An error whose record holds [undefined] below its own properties: the
    store refuses the record, and nothing is written. *)
Example errorOccured_refused_example :
  let error := VObject [("message", VString "boom");
                        ("details", VObject [("reason", VUndefined)])] in
  errorOccured own_properties "t1" error example_world
  = (Rejected InvalidArgument, example_world).
Proof. vm_compute. reflexivity. Qed.

(** ** Appending a paragraph *)

Lemma addParagraph_run id paragraph percent pid w :
  valid_id id → valid_id pid →
  addParagraph id paragraph percent pid w
  = if obj_has_undefined paragraph || obj_has_sentinel paragraph
       || obj_has_empty_name paragraph
    then (Rejected InvalidArgument, w)
    else commit (paragraph_batch id paragraph percent pid) w.
Proof.
  intros Hid Hpid. unfold addParagraph, bind.
  rewrite db_collection_paragraphs by done. cbv beta iota.
  rewrite db_doc_paragraph by done. cbv beta iota. unfold batch_create.
  destruct (obj_has_undefined paragraph || obj_has_sentinel paragraph
            || obj_has_empty_name paragraph); [done|].
  unfold resolve at 1. cbv beta iota. by rewrite db_doc_transcript by done.
Qed.

(** The batch of [addParagraph]: both writes, or an error and no change. *)
Lemma commit_paragraph_batch id paragraph percent pid w :
  let pref := ["transcripts"; id; "paragraphs"; pid] in
  let tref := ["transcripts"; id] in
  commit (paragraph_batch id paragraph percent pid) w
  = match docs w !! pref, docs w !! tref with
    | Some _, _ => (Rejected AlreadyExists, w)
    | None, None => (Rejected NotFound, w)
    | None, Some old =>
        (Resolved (),
         mkWorld (<[tref := update_field ["status"; "percent"] (VNumber percent) old]>
                    (<[pref := paragraph]> (docs w)))
                 (log w ++ [paragraph_batch id paragraph percent pid]))
    end.
Proof.
  intros pref tref. unfold commit, paragraph_batch. cbn [apply_writes apply_write].
  fold pref tref. destruct (docs w !! pref); [done|].
  rewrite lookup_insert_ne by done. by destruct (docs w !! tref).
Qed.

(** C2: [addParagraph] commits the creation of the paragraph and the update
    of [status.percent] as one batch.  When the client accepts the
    paragraph, its identifier is free and the transcript exists, the call
    resolves: both writes are applied, and the store has committed them as
    a single group.  In every other case the call is rejected and the store
    is as it was.  So whatever the outcome, either both writes are applied
    or neither is: no state has the paragraph without the new percent, or
    the new percent without the paragraph. *)
Theorem addParagraph_atomic (id : string) (paragraph : object) (percent : Z)
    (pid : string) (w : World) :
  valid_id id → valid_id pid →
  let pref := ["transcripts"; id; "paragraphs"; pid] in
  let tref := ["transcripts"; id] in
  let batch := paragraph_batch id paragraph percent pid in
  let invalid := obj_has_undefined paragraph || obj_has_sentinel paragraph
                 || obj_has_empty_name paragraph in
  (invalid = false → docs w !! pref = None → is_Some (docs w !! tref) →
   ∃ w', addParagraph id paragraph percent pid w = (Resolved (), w')
     ∧ docs w' !! pref = Some paragraph
     ∧ obj_get "percent" (status_fields w' id) = Some (VNumber percent)
     ∧ log w' = log w ++ [batch]
     ∧ apply_writes batch (docs w) = inr (docs w')
     ∧ (∀ ref, ref ≠ pref → ref ≠ tref → docs w' !! ref = docs w !! ref))
  ∧ (invalid = true ∨ is_Some (docs w !! pref) ∨ docs w !! tref = None →
     ∃ e, addParagraph id paragraph percent pid w = (Rejected e, w))
  ∧ (∀ r w', addParagraph id paragraph percent pid w = (r, w') →
       (r = Resolved ()
        ∧ docs w !! pref = None
        ∧ docs w' !! pref = Some paragraph
        ∧ obj_get "percent" (status_fields w' id) = Some (VNumber percent)
        ∧ log w' = log w ++ [batch])
       ∨ ((∃ e, r = Rejected e) ∧ w' = w)).
Proof.
  intros Hid Hpid pref tref batch invalid. rewrite addParagraph_run by done.
  fold invalid. rewrite commit_paragraph_batch. fold pref tref batch.
  assert (∀ old, docs w !! pref = None → docs w !! tref = Some old →
            let w' := mkWorld
                        (<[tref := update_field ["status"; "percent"]
                                     (VNumber percent) old]>
                           (<[pref := paragraph]> (docs w)))
                        (log w ++ [batch]) in
            docs w' !! pref = Some paragraph
            ∧ obj_get "percent" (status_fields w' id) = Some (VNumber percent)
            ∧ apply_writes batch (docs w) = inr (docs w')
            ∧ (∀ ref, ref ≠ pref → ref ≠ tref → docs w' !! ref = docs w !! ref))
    as Hboth.
  { intros old Hp Ht w'. subst w'. cbn [docs].
    split; [by rewrite lookup_insert_ne, lookup_insert_eq|]. split.
    { unfold status_fields, doc_fields. cbn [docs]. fold tref.
      rewrite lookup_insert_eq. cbn [default update_field Datatypes.id].
      rewrite obj_get_set_eq. cbn [fields_of]. by rewrite obj_get_set_eq. }
    split.
    { subst batch. unfold paragraph_batch. cbn [apply_writes apply_write].
      fold pref tref. rewrite Hp. rewrite lookup_insert_ne by done.
      by rewrite Ht. }
    intros ref Hr1 Hr2. by rewrite !lookup_insert_ne. }
  split; [|split].
  - intros -> Hp [old Ht]. rewrite Hp, Ht. eexists. split; [done|].
    destruct (Hboth old Hp Ht) as (? & ? & ? & ?). done.
  - intros [->|[[d Hp]|Ht]]; [by eexists|..].
    + destruct invalid; [by eexists|]. rewrite Hp. by eexists.
    + destruct invalid; [by eexists|]. rewrite Ht.
      destruct (docs w !! pref); by eexists.
  - intros r w'. destruct invalid.
    { intros [= <- <-]. right. split; [by eexists|done]. }
    destruct (docs w !! pref) eqn:Hp.
    { intros [= <- <-]. right. split; [by eexists|done]. }
    destruct (docs w !! tref) as [old|] eqn:Ht.
    + intros [= <- <-]. left.
      destruct (Hboth old eq_refl eq_refl) as (? & ? & ? & ?). done.
    + intros [= <- <-]. right. split; [by eexists|done].
Qed.

Lemma addParagraph_atomic_witness :
  let paragraph := [("startTime", VNumber 9); ("text", VString "hello")] in
  let pref := ["transcripts"; "t1"; "paragraphs"; "p9"] in
  ∃ w', addParagraph "t1" paragraph 42 "p9" example_world = (Resolved (), w')
    ∧ docs w' !! pref = Some paragraph
    ∧ obj_get "percent" (status_fields w' "t1") = Some (VNumber 42)
    ∧ log w' = log example_world ++ [paragraph_batch "t1" paragraph 42 "p9"].
Proof.
  intros paragraph pref.
  destruct (addParagraph_atomic "t1" paragraph 42 "p9" example_world)
    as (Hcommit & _ & _); [by vm_compute..|].
  destruct Hcommit as (w' & Hrun & Hp & Hpercent & Hlog & _).
  - reflexivity.
  - vm_compute. reflexivity.
  - vm_compute. by eexists.
  - exists w'. split; [exact Hrun|]. split; [exact Hp|].
    split; [exact Hpercent|exact Hlog].
Defined.

(** The paragraph is appended and the percent advanced in one group. *)
Example addParagraph_example :
  let paragraph := [("startTime", VNumber 9); ("text", VString "hello")] in
  let r := addParagraph "t1" paragraph 42 "p9" example_world in
  r.1 = Resolved ()
  ∧ docs r.2 !! ["transcripts"; "t1"; "paragraphs"; "p9"] = Some paragraph
  ∧ obj_get "percent" (status_fields r.2 "t1") = Some (VNumber 42)
  ∧ log r.2 = [paragraph_batch "t1" paragraph 42 "p9"].
Proof. vm_compute. repeat split; reflexivity. Qed.

(** The outcome of [addParagraph] is never left open, and a rejection
    changes nothing. *)
Lemma addParagraph_outcome id paragraph percent pid w r w' :
  valid_id id → valid_id pid →
  addParagraph id paragraph percent pid w = (r, w') →
  (∃ e, r = Rejected e ∧ w' = w)
  ∨ (r = Resolved ()
     ∧ is_Some (docs w !! ["transcripts"; id])
     ∧ ∃ old, docs w' = <[["transcripts"; id] := old]>
                          (<[["transcripts"; id; "paragraphs"; pid] := paragraph]> (docs w))).
Proof.
  intros Hid Hpid. rewrite addParagraph_run by done.
  destruct (obj_has_undefined paragraph || obj_has_sentinel paragraph
            || obj_has_empty_name paragraph).
  { intros [= <- <-]. left. by eexists. }
  rewrite commit_paragraph_batch.
  destruct (docs w !! ["transcripts"; id; "paragraphs"; pid]).
  { intros [= <- <-]. left. by eexists. }
  destruct (docs w !! ["transcripts"; id]) as [old|].
  - intros [= <- <-]. right. split; [done|]. split; [by eexists|].
    by eexists.
  - intros [= <- <-]. left. by eexists.
Qed.

(** Ownership is kept by every call of [addParagraph], whatever its
    outcome. *)
Lemma addParagraph_owned id paragraph percent pid w :
  valid_id id → valid_id pid →
  owned (docs w) → owned (docs (addParagraph id paragraph percent pid w).2).
Proof.
  intros Hid Hpid Hown.
  destruct (addParagraph id paragraph percent pid w) as [r w'] eqn:Hrun.
  cbn [snd].
  apply addParagraph_outcome in Hrun; [|done..].
  destruct Hrun as [(e & -> & ->)|(-> & Ht & old & Hdocs)]; [done|].
  rewrite Hdocs. intros id' pid' Hsome.
  destruct (decide (id' = id)) as [->|Hne].
  - rewrite lookup_insert_eq. by eexists.
  - rewrite lookup_insert_ne by congruence.
    rewrite lookup_insert_ne in Hsome by congruence.
    rewrite lookup_insert_ne in Hsome by congruence.
    rewrite lookup_insert_ne by congruence. by apply (Hown id' pid').
Qed.

(** C9: when the transcript document does not exist, [addParagraph] fails
    as a whole: the update of [status.percent] finds no document, the batch
    is rejected and the paragraph is not created; a call that does create
    the paragraph found its transcript and leaves it in place; and so the
    ownership of paragraphs by existing transcripts is preserved. *)
Theorem addParagraph_missing_transcript (id : string) (paragraph : object)
    (percent : Z) (pid : string) (w : World) :
  valid_id id → valid_id pid →
  let pref := ["transcripts"; id; "paragraphs"; pid] in
  let tref := ["transcripts"; id] in
  (docs w !! tref = None →
   ∃ e, addParagraph id paragraph percent pid w = (Rejected e, w)
        ∧ (obj_has_undefined paragraph || obj_has_sentinel paragraph = false →
           docs w !! pref = None →
           e = if obj_has_empty_name paragraph then InvalidArgument else NotFound))
  ∧ (∀ w', addParagraph id paragraph percent pid w = (Resolved (), w') →
           is_Some (docs w !! tref) ∧ is_Some (docs w' !! tref))
  ∧ (owned (docs w) → owned (docs (addParagraph id paragraph percent pid w).2)).
Proof.
  intros Hid Hpid pref tref. split; [|split].
  - intros Hnone. rewrite addParagraph_run by done.
    destruct (obj_has_undefined paragraph || obj_has_sentinel paragraph);
      [by eexists|].
    rewrite orb_false_l. destruct (obj_has_empty_name paragraph); [by eexists|].
    rewrite commit_paragraph_batch. fold pref tref. rewrite Hnone.
    destruct (docs w !! pref); by eexists.
  - intros w' Hrun.
    apply addParagraph_outcome in Hrun; [|done..].
    destruct Hrun as [(e & ? & _)|(_ & Ht & old & Hdocs)]; [done|].
    split; [done|]. rewrite Hdocs. fold tref.
    rewrite lookup_insert_eq. by eexists.
  - by apply addParagraph_owned.
Qed.

Lemma addParagraph_missing_transcript_witness :
  let paragraph := [("startTime", VNumber 9)] in
  let pref := ["transcripts"; "t3"; "paragraphs"; "p1"] in
  let tref := ["transcripts"; "t3"] in
  docs example_world !! tref = None
  ∧ owned (docs example_world)
  ∧ addParagraph "t3" paragraph 42 "p1" example_world = (Rejected NotFound, example_world)
  ∧ owned (docs (addParagraph "t3" paragraph 42 "p1" example_world).2).
Proof.
  intros paragraph pref tref.
  assert (owned (docs example_world)) as Hown.
  { intros id pid [d Hd]. apply elem_of_list_to_map_2 in Hd.
    repeat (apply elem_of_cons in Hd as [Hd|Hd]; [simplify_eq; vm_compute; by eexists|]).
    by apply elem_of_nil in Hd. }
  destruct (addParagraph_missing_transcript "t3" paragraph 42 "p1" example_world)
    as (Hmissing & _ & Hkeep); [by vm_compute..|].
  destruct Hmissing as (e & Hrun & He); [done|].
  rewrite (He eq_refl eq_refl) in Hrun.
  split; [done|]. split; [done|]. split; [done|]. by apply Hkeep.
Defined.

(** ** The order of a query *)

Section lex.
Context {A B : Type} (RA : relation A) (RB : relation B).
Context `{!EqDecision A}.

Lemma lex_total : Total RA → Total RB → Total (lex RA RB).
Proof.
  intros HA HB [a1 b1] [a2 b2]. unfold lex. simpl.
  destruct (decide (a1 = a2)) as [->|Hne].
  - destruct (HB b1 b2); [left|right]; right; done.
  - destruct (HA a1 a2); [left|right]; left; split; congruence.
Qed.

Lemma lex_trans : PartialOrder RA → Transitive RB → Transitive (lex RA RB).
Proof.
  intros HA HB [a1 b1] [a2 b2] [a3 b3]. unfold lex. simpl.
  intros [[H12 Hne12]|[-> H12]] [[H23 Hne23]|[-> H23]].
  - left. split; [by trans a2|]. intros ->. apply Hne12. by apply (anti_symm RA).
  - left. done.
  - left. done.
  - right. split; [done|]. by trans b2.
Qed.

Lemma lex_antisymm :
  AntiSymm (=) RA → AntiSymm (=) RB → AntiSymm (=) (lex RA RB).
Proof.
  intros HA HB [a1 b1] [a2 b2]. unfold lex. simpl.
  intros [[H12 Hne12]|[-> H12]] [[H21 Hne21]|[Heq H21]]; try congruence.
  - destruct Hne12. by apply (anti_symm RA).
  - f_equal. by apply (anti_symm RB).
Qed.

End lex.

Global Instance key_le_total : Total key_le.
Proof. unfold key_le. repeat apply lex_total; apply _. Qed.

Global Instance key_le_trans : Transitive key_le.
Proof. unfold key_le. repeat apply lex_trans; apply _. Qed.

Global Instance key_le_antisymm : AntiSymm (=) key_le.
Proof. unfold key_le. repeat apply lex_antisymm; apply _. Qed.

Global Instance by_key_total : Total by_key.
Proof. intros x y. apply key_le_total. Qed.

Global Instance by_key_trans : Transitive by_key.
Proof. intros x y z. apply key_le_trans. Qed.

(** The identifier of a document is the last part of its key. *)
Lemma doc_key_id field doc k : doc_key field doc = Some k → k.2.2.2 = doc.1.
Proof.
  unfold doc_key. destruct (order_value field doc) as [v|]; [|done]. simpl.
  destruct v; simpl; intros; by simplify_eq.
Qed.

(** Every document has a key for [__name__]. *)
Lemma doc_key_name doc : doc_key "__name__" doc = Some (3, (0%Z, (doc.1, doc.1))).
Proof. reflexivity. Qed.

(** For two numbers, the order of the keys is the order of the numbers,
    then of the identifiers. *)
Lemma key_le_numbers (n1 n2 : Z) (i1 i2 : string) :
  key_le (2, (n1, (EmptyString, i1))) (2, (n2, (EmptyString, i2)))
  ↔ (n1 < n2)%Z ∨ (n1 = n2 ∧ String.le i1 i2).
Proof.
  unfold key_le, lex. simpl. split.
  - intros [[_ ?]|[_ [[? ?]|[-> [[_ ?]|[_ ?]]]]]]; try done.
    + left. lia.
    + right. done.
  - intros [?|[-> ?]].
    + right. split; [done|]. left. split; lia.
    + right. split; [done|]. right. split; [done|]. right. done.
Qed.

(** ** Collections *)

Lemma child_id_Some c p id : child_id c p = Some id ↔ p = c ++ [id].
Proof.
  unfold child_id. split.
  - case_decide as Htake; [|done].
    destruct (drop (length c) p) as [|i [|]] eqn:Hdrop; try done.
    intros [= ->]. by rewrite <-(take_drop (length c) p), Htake, Hdrop.
  - intros ->. rewrite take_app_length, decide_True by done.
    by rewrite drop_app_length.
Qed.

Lemma elem_of_coll_docs c m id d :
  (id, d) ∈ coll_docs c m ↔ m !! (c ++ [id]) = Some d.
Proof.
  unfold coll_docs. rewrite list_elem_of_omap. split.
  - intros ([p d'] & Hin & Hsome). simpl in Hsome.
    destruct (child_id c p) as [i|] eqn:Hchild; simplify_eq/=.
    apply child_id_Some in Hchild as ->. by apply elem_of_map_to_list.
  - intros Hget. exists (c ++ [id], d). split; [by apply elem_of_map_to_list|].
    simpl. by rewrite (proj2 (child_id_Some _ _ _) eq_refl).
Qed.

Lemma NoDup_coll_docs_ids c m : NoDup (coll_docs c m).*1.
Proof.
  unfold coll_docs. pose proof (NoDup_fst_map_to_list m) as Hnd.
  induction (map_to_list m) as [|[p d] l IH]; [constructor|].
  rewrite fmap_cons in Hnd. apply NoDup_cons in Hnd as [Hp Hnd].
  cbn [omap list_omap fst snd].
  destruct (child_id c p) as [i|] eqn:Hchild; cbn [fmap option_fmap option_map];
    [|by apply IH].
  rewrite fmap_cons. apply NoDup_cons. split; [|by apply IH].
  intros Hin. apply Hp. cbn [fst] in Hin.
  apply list_elem_of_fmap in Hin as ([i' d'] & Heq & Hin). cbn [fst] in Heq. subst i'.
  apply list_elem_of_omap in Hin as ([p' d''] & Hin & Hsome). cbn [fst snd] in Hsome.
  destruct (child_id c p') as [j|] eqn:Hchild'; [|done].
  cbn in Hsome. injection Hsome as -> ->.
  apply child_id_Some in Hchild. apply child_id_Some in Hchild'. subst p p'.
  apply list_elem_of_fmap. by exists (c ++ [i], d').
Qed.

Lemma NoDup_coll_docs c m : NoDup (coll_docs c m).
Proof. eapply NoDup_fmap_1, NoDup_coll_docs_ids. Qed.

(** The documents of a collection are a matter of its content only. *)
Lemma coll_docs_Permutation c m1 m2 :
  (∀ id, m1 !! (c ++ [id]) = m2 !! (c ++ [id])) →
  coll_docs c m1 ≡ₚ coll_docs c m2.
Proof.
  intros Hsame. apply NoDup_Permutation; [apply NoDup_coll_docs..|].
  intros [id d]. by rewrite !elem_of_coll_docs, Hsame.
Qed.

Lemma coll_docs_nil c m : coll_docs c m = [] ↔ ∀ id, m !! (c ++ [id]) = None.
Proof.
  split.
  - intros Hnil id. destruct (m !! (c ++ [id])) as [d|] eqn:Hget; [|done].
    apply elem_of_coll_docs in Hget. rewrite Hnil in Hget.
    by apply elem_of_nil in Hget.
  - intros Hnone. destruct (coll_docs c m) as [|[id d] l] eqn:Hl; [done|].
    assert ((id, d) ∈ coll_docs c m) as Hin by (rewrite Hl; left).
    apply elem_of_coll_docs in Hin. by rewrite Hnone in Hin.
Qed.

(** Keyed documents. *)
Lemma elem_of_keyed field l k doc :
  (k, doc) ∈ keyed field l ↔ doc ∈ l ∧ doc_key field doc = Some k.
Proof.
  unfold keyed. rewrite list_elem_of_omap. split.
  - intros (doc' & Hin & Hsome).
    destruct (doc_key field doc') as [k'|] eqn:Hk; simplify_eq/=. done.
  - intros [Hin Hk]. exists doc. by rewrite Hk.
Qed.

Lemma keyed_snd field l :
  (keyed field l).*2 = filter (λ doc, is_Some (doc_key field doc)) l.
Proof.
  unfold keyed. induction l as [|doc l IH]; [done|]. cbn [omap list_omap].
  destruct (doc_key field doc) as [k|] eqn:Hk; cbn [fmap option_fmap option_map].
  - rewrite filter_cons_True by (rewrite Hk; by eexists).
    rewrite fmap_cons. cbn [snd]. by rewrite IH.
  - rewrite filter_cons_False by (rewrite Hk; by intros [? ?]). done.
Qed.

Lemma keyed_name_snd l : (keyed "__name__" l).*2 = l.
Proof.
  rewrite keyed_snd. induction l as [|doc l IH]; [done|].
  rewrite filter_cons_True by (by eexists). by rewrite IH.
Qed.

Lemma keyed_Permutation field l1 l2 :
  l1 ≡ₚ l2 → keyed field l1 ≡ₚ keyed field l2.
Proof. intros Hl. unfold keyed. by rewrite Hl. Qed.


(** ** Snapshots *)

Lemma merge_sort_keyed_Permutation field c m :
  merge_sort by_key (keyed field (coll_docs c m)) ≡ₚ keyed field (coll_docs c m).
Proof. apply merge_sort_Permutation. Qed.

Lemma ordered_docs_Permutation field c m :
  ordered_docs field c m
  ≡ₚ filter (λ doc, is_Some (doc_key field doc)) (coll_docs c m).
Proof.
  unfold ordered_docs. rewrite merge_sort_keyed_Permutation. by rewrite keyed_snd.
Qed.

Lemma ordered_docs_name_Permutation c m :
  ordered_docs "__name__" c m ≡ₚ coll_docs c m.
Proof.
  unfold ordered_docs. rewrite merge_sort_keyed_Permutation. by rewrite keyed_name_snd.
Qed.

Lemma elem_of_ordered_docs field c m id d :
  (id, d) ∈ ordered_docs field c m
  ↔ m !! (c ++ [id]) = Some d ∧ is_Some (doc_key field (id, d)).
Proof.
  rewrite ordered_docs_Permutation, list_elem_of_filter, elem_of_coll_docs.
  tauto.
Qed.

Lemma NoDup_ordered_docs_ids field c m : NoDup (ordered_docs field c m).*1.
Proof.
  rewrite ordered_docs_Permutation.
  eapply sublist_NoDup; [apply (NoDup_coll_docs_ids c m)|].
  apply fmap_sublist, sublist_filter.
Qed.

(** Two keyed documents of one collection that are each before the other
    are the same. *)
Lemma by_key_antisymm_keyed field c m x y :
  x ∈ keyed field (coll_docs c m) → y ∈ keyed field (coll_docs c m) →
  by_key x y → by_key y x → x = y.
Proof.
  destruct x as [kx [ix dx]], y as [ky [iy dy]].
  rewrite !elem_of_keyed, !elem_of_coll_docs. unfold by_key. simpl.
  intros [Hx Hkx] [Hy Hky] Hxy Hyx.
  assert (kx = ky) as -> by (by apply (anti_symm key_le)).
  apply doc_key_id in Hkx, Hky. simpl in *. subst ix iy. by simplify_eq.
Qed.

(** The sorted list of the keyed documents of a collection is the only one. *)
Lemma sorted_keyed_unique field c m l :
  Sorted by_key l → l ≡ₚ keyed field (coll_docs c m) →
  l = merge_sort by_key (keyed field (coll_docs c m)).
Proof.
  intros Hsorted Hperm. apply (Sorted_unique_strong by_key); [|done| |].
  - intros x y Hx Hy. rewrite Hperm in Hx.
    rewrite merge_sort_Permutation in Hy. by eapply by_key_antisymm_keyed.
  - apply (Sorted_merge_sort by_key).
  - by rewrite merge_sort_Permutation.
Qed.

(** A snapshot depends on the content of the collection only, not on how
    the store came to hold it. *)
Lemma ordered_docs_content field c m1 m2 :
  (∀ id, m1 !! (c ++ [id]) = m2 !! (c ++ [id])) →
  ordered_docs field c m1 = ordered_docs field c m2.
Proof.
  intros Hsame. unfold ordered_docs. f_equal.
  apply sorted_keyed_unique; [apply (Sorted_merge_sort by_key)|].
  rewrite merge_sort_Permutation. apply keyed_Permutation.
  by apply coll_docs_Permutation.
Qed.

Lemma StronglySorted_and {A} (R : relation A) (P : A → Prop) l :
  StronglySorted R l → Forall P l →
  StronglySorted (λ x y, P x ∧ P y ∧ R x y) l.
Proof.
  induction 1 as [|x l Hl IH Hx]; intros HP; [constructor|].
  apply Forall_cons in HP as [HPx HPl]. constructor; [by apply IH|].
  rewrite Forall_forall in Hx, HPl |- *. intros y Hy. auto.
Qed.

(** A snapshot is in the order of the query: every document in it comes
    before all those after it. *)
Lemma ordered_docs_sorted field c m :
  StronglySorted (doc_le field) (ordered_docs field c m).
Proof.
  unfold ordered_docs.
  apply (StronglySorted_fmap snd
           (λ x y, doc_key field x.2 = Some x.1 ∧ doc_key field y.2 = Some y.1
                   ∧ by_key x y)).
  - intros [kx x] [ky y] (Hx & Hy & Hle). by exists kx, ky.
  - apply (StronglySorted_and by_key (λ x, doc_key field x.2 = Some x.1)).
    + apply (StronglySorted_merge_sort by_key).
    + apply Forall_forall. intros [k doc] Hin.
      rewrite merge_sort_Permutation in Hin. by apply elem_of_keyed in Hin as [_ ?].
Qed.

Lemma StronglySorted_lookup {A} (R : relation A) l i j x y :
  StronglySorted R l → i < j → l !! i = Some x → l !! j = Some y → R x y.
Proof.
  intros Hl. revert i j. induction Hl as [|z l Hl IH Hz]; intros i j Hij Hi Hj.
  - by rewrite lookup_nil in Hi.
  - destruct j as [|j]; [lia|]. rewrite lookup_cons in Hj.
    destruct i as [|i].
    + injection Hi as ->. rewrite Forall_forall in Hz.
      apply Hz. by eapply list_elem_of_lookup_2.
    + rewrite lookup_cons in Hi. apply (IH i j); [lia|done..].
Qed.

Lemma foldl_push_data (l : list (string * object)) (acc : list object) :
  foldl (λ paragraphs doc, paragraphs ++ [doc.2]) acc l = acc ++ l.*2.
Proof.
  revert acc. induction l as [|doc l IH]; intros acc; simpl.
  - by rewrite app_nil_r.
  - rewrite IH. by rewrite <-app_assoc.
Qed.

Lemma insert_docs_cons c doc l m :
  insert_docs c (doc :: l) m = insert_docs c l (<[c ++ [doc.1] := doc.2]> m).
Proof. reflexivity. Qed.

Lemma lookup_insert_docs_other c l m id :
  id ∉ l.*1 → insert_docs c l m !! (c ++ [id]) = m !! (c ++ [id]).
Proof.
  revert m. induction l as [|doc l IH]; intros m Hid; [done|].
  rewrite fmap_cons in Hid. apply not_elem_of_cons in Hid as [Hne Hid].
  rewrite insert_docs_cons, IH by done. apply lookup_insert_ne.
  intros ?. simplify_list_eq.
Qed.

Lemma lookup_insert_docs_elem c l m id d :
  NoDup l.*1 → (id, d) ∈ l → insert_docs c l m !! (c ++ [id]) = Some d.
Proof.
  revert m. induction l as [|doc l IH]; intros m Hnd Hin.
  - by apply elem_of_nil in Hin.
  - rewrite fmap_cons in Hnd. apply NoDup_cons in Hnd as [Hdoc Hnd].
    rewrite insert_docs_cons. apply elem_of_cons in Hin as [<-|Hin].
    + rewrite lookup_insert_docs_other by done. apply lookup_insert_eq.
    + by apply IH.
Qed.

(** The order in which documents are put into a collection does not show
    in its content. *)
Lemma insert_docs_Permutation c l1 l2 m id :
  NoDup l1.*1 → l1 ≡ₚ l2 →
  insert_docs c l1 m !! (c ++ [id]) = insert_docs c l2 m !! (c ++ [id]).
Proof.
  intros Hnd Hperm.
  assert (NoDup l2.*1) as Hnd2 by (by rewrite <-Hperm).
  destruct (decide (id ∈ l1.*1)) as [Hin|Hnin].
  - apply list_elem_of_fmap in Hin as ([i d] & -> & Hin). cbn [fst].
    rewrite (lookup_insert_docs_elem c l1 m i d) by done.
    rewrite (lookup_insert_docs_elem c l2 m i d); [done..|]. by rewrite <-Hperm.
  - rewrite !lookup_insert_docs_other; [done| |done]. by rewrite <-Hperm.
Qed.

Lemma filter_all {A} (P : A → Prop) `{!∀ x, Decision (P x)} (l : list A) :
  Forall P l → filter P l = l.
Proof.
  induction 1 as [|x l Hx Hl IH]; [done|].
  by rewrite filter_cons_True, IH.
Qed.

Lemma getParagraphs_run id w :
  valid_id id →
  getParagraphs id w
  = (Resolved (ordered_docs "startTime" ["transcripts"; id; "paragraphs"] (docs w)).*2, w).
Proof.
  intros Hid. unfold getParagraphs, bind.
  rewrite db_collection_paragraphs by done. cbv beta iota.
  unfold query_get, query_docs, resolve. cbn [q_limit q_order q_collection].
  by rewrite foldl_push_data.
Qed.

(** ** The paragraphs of a transcript, in order *)

(** C5: [getParagraphs] returns the data of the paragraphs of the
    transcript that have a start time (all of them, when each has a
    number for it) in ascending order of [startTime], paragraphs with equal
    start times in the order of their identifiers; so the order is strict
    on start time and identifier together.  The result depends on the
    paragraphs the collection holds, not on the order in which they were
    put there. *)
Theorem getParagraphs_ordered (id : string) (w : World) :
  valid_id id →
  let c := ["transcripts"; id; "paragraphs"] in
  ∃ snapshot : list (string * object),
    getParagraphs id w = (Resolved snapshot.*2, w)
    ∧ (∀ pid d, (pid, d) ∈ snapshot
         ↔ docs w !! (c ++ [pid]) = Some d ∧ is_Some (doc_key "startTime" (pid, d)))
    ∧ ((∀ pid d, docs w !! (c ++ [pid]) = Some d →
                 ∃ t, obj_get "startTime" d = Some (VNumber t)) →
       snapshot ≡ₚ coll_docs c (docs w))
    ∧ NoDup snapshot.*1
    ∧ StronglySorted (doc_le "startTime") snapshot
    ∧ (∀ i j x y tx ty,
         i < j → snapshot !! i = Some x → snapshot !! j = Some y →
         obj_get "startTime" x.2 = Some (VNumber tx) →
         obj_get "startTime" y.2 = Some (VNumber ty) →
         (tx < ty)%Z ∨ (tx = ty ∧ String.le x.1 y.1 ∧ x.1 ≠ y.1))
    ∧ (∀ w2, (∀ pid, docs w2 !! (c ++ [pid]) = docs w !! (c ++ [pid])) →
             getParagraphs id w2 = (Resolved snapshot.*2, w2))
    ∧ (∀ base l1 l2 w2,
         NoDup l1.*1 → l1 ≡ₚ l2 →
         docs w = insert_docs c l1 base → docs w2 = insert_docs c l2 base →
         getParagraphs id w2 = (Resolved snapshot.*2, w2)).
Proof.
  intros Hid c. exists (ordered_docs "startTime" c (docs w)).
  assert (∀ w2, (∀ pid, docs w2 !! (c ++ [pid]) = docs w !! (c ++ [pid])) →
             getParagraphs id w2
             = (Resolved (ordered_docs "startTime" c (docs w)).*2, w2)) as Hcontent.
  { intros w2 Hsame. rewrite getParagraphs_run by done.
    by rewrite (ordered_docs_content "startTime" _ (docs w2) (docs w)). }
  split; [by apply getParagraphs_run|].
  split; [intros pid d; apply elem_of_ordered_docs|].
  split.
  { intros Htimes. rewrite ordered_docs_Permutation.
    rewrite filter_all; [done|]. apply Forall_forall. intros [pid d] Hin.
    apply elem_of_coll_docs in Hin. apply Htimes in Hin as [t Ht].
    unfold doc_key, order_value. rewrite decide_False by done.
    cbn [snd]. rewrite Ht. by eexists. }
  split; [apply NoDup_ordered_docs_ids|].
  split; [apply ordered_docs_sorted|].
  split; [|split; [exact Hcontent|]].
  - intros i j x y tx ty Hij Hi Hj Hx Hy.
    pose proof (StronglySorted_lookup _ _ _ _ _ _
                  (ordered_docs_sorted "startTime" c (docs w)) Hij Hi Hj)
      as (kx & ky & Hkx & Hky & Hle).
    unfold doc_key, order_value in Hkx, Hky.
    rewrite decide_False in Hkx, Hky by done.
    rewrite Hx in Hkx. rewrite Hy in Hky. simpl in Hkx, Hky.
    injection Hkx as <-. injection Hky as <-.
    apply key_le_numbers in Hle as [?|[-> Hle]]; [by left|].
    right. split; [done|]. split; [done|]. intros Heq.
    pose proof (NoDup_ordered_docs_ids "startTime" c (docs w)) as Hnd.
    assert (i = j) as ->; [|lia].
    eapply NoDup_lookup; [exact Hnd|..].
    + rewrite list_lookup_fmap, Hi. done.
    + rewrite list_lookup_fmap, Hj. simpl. by rewrite Heq.
  - intros base l1 l2 w2 Hnd Hperm Hw Hw2. apply Hcontent. intros pid.
    rewrite Hw, Hw2. symmetry. by apply insert_docs_Permutation.
Qed.

Lemma getParagraphs_ordered_witness :
  ∃ snapshot : list (string * object),
    getParagraphs "t1" example_world = (Resolved snapshot.*2, example_world)
    ∧ NoDup snapshot.*1
    ∧ StronglySorted (doc_le "startTime") snapshot.
Proof.
  destruct (getParagraphs_ordered "t1" example_world)
    as (snapshot & Hrun & _ & _ & Hnd & Hsorted & _); [by vm_compute|].
  exists snapshot. split; [exact Hrun|]. split; [exact Hnd|exact Hsorted].
Defined.

(** Two paragraphs start at 3: [a] comes before [b]. *)
Example getParagraphs_example :
  getParagraphs "t1" example_world
  = (Resolved [ [("startTime", VNumber 1)];
                [("startTime", VNumber 3); ("text", VString "second")];
                [("startTime", VNumber 3); ("text", VString "third")];
                [("startTime", VNumber 7)] ],
     example_world).
Proof. vm_compute. reflexivity. Qed.

(** ** Deleting a collection *)

Global Instance doc_le_trans field : Transitive (doc_le field).
Proof.
  intros x y z (kx & ky & Hx & Hy & Hxy) (ky' & kz & Hy' & Hz & Hyz).
  simplify_eq. exists kx, kz. split; [done|]. split; [done|]. by trans ky.
Qed.

(** The snapshot of a whole collection is its only sorted listing. *)
Lemma ordered_docs_unique field c m l :
  Sorted (doc_le field) l →
  l ≡ₚ filter (λ doc, is_Some (doc_key field doc)) (coll_docs c m) →
  l = ordered_docs field c m.
Proof.
  intros Hsorted Hperm.
  apply (Sorted_unique_strong (doc_le field)); [|done| |].
  - intros [ix dx] [iy dy] Hx Hy (kx & ky & Hkx & Hky & Hxy) (ky' & kx' & ? & ? & Hyx).
    simplify_eq. rewrite Hperm in Hx. apply list_elem_of_filter in Hx as [_ Hx].
    apply elem_of_ordered_docs in Hy as [Hy _]. apply elem_of_coll_docs in Hx.
    assert (kx = ky) as -> by (by apply (anti_symm key_le)).
    apply doc_key_id in Hkx, Hky. simpl in *. subst ix iy. by simplify_eq.
  - apply Sorted.StronglySorted_Sorted, ordered_docs_sorted.
  - by rewrite ordered_docs_Permutation.
Qed.

Lemma foldl_batch_delete c (snapshot : list (string * object)) acc :
  foldl (λ batch doc, batch_delete (c ++ [doc.1]) batch) acc snapshot
  = acc ++ delete_batch c snapshot.
Proof.
  revert acc. induction snapshot as [|doc l IH]; intros acc; simpl.
  - by rewrite app_nil_r.
  - rewrite IH. unfold batch_delete. by rewrite <-app_assoc.
Qed.

Lemma apply_delete_batch c snapshot m :
  apply_writes (delete_batch c snapshot) m = inr (remove_docs c snapshot m).
Proof.
  revert m. induction snapshot as [|doc l IH]; intros m; [done|].
  unfold delete_batch. rewrite fmap_cons. cbn [apply_writes apply_write].
  apply IH.
Qed.

Lemma remove_docs_cons c doc l m :
  remove_docs c (doc :: l) m = remove_docs c l (delete (c ++ [doc.1]) m).
Proof. reflexivity. Qed.

Lemma lookup_remove_docs_child c snapshot m id :
  remove_docs c snapshot m !! (c ++ [id])
  = if decide (id ∈ snapshot.*1) then None else m !! (c ++ [id]).
Proof.
  revert m. induction snapshot as [|[i d] l IH]; intros m.
  - rewrite decide_False; [done|]. apply not_elem_of_nil.
  - rewrite remove_docs_cons, IH, fmap_cons. cbn [fst].
    destruct (decide (id ∈ l.*1)) as [Hl|Hl].
    + rewrite decide_True; [done|by right].
    + destruct (decide (id = i)) as [->|Hne].
      * rewrite lookup_delete_eq. rewrite decide_True; [done|left].
      * rewrite lookup_delete_ne by (intros ?; simplify_list_eq).
        rewrite decide_False; [done|]. rewrite not_elem_of_cons. done.
Qed.

Lemma lookup_remove_docs_other c snapshot m p :
  child_id c p = None → remove_docs c snapshot m !! p = m !! p.
Proof.
  intros Hp. revert m. induction snapshot as [|[i d] l IH]; intros m; [done|].
  rewrite remove_docs_cons, IH. apply lookup_delete_ne. intros <-.
  by rewrite (proj2 (child_id_Some _ _ _) eq_refl) in Hp.
Qed.

Lemma remove_docs_app c l1 l2 m :
  remove_docs c (l1 ++ l2) m = remove_docs c l2 (remove_docs c l1 m).
Proof. unfold remove_docs. by rewrite foldl_app. Qed.

(** After the first [n] documents of a collection are deleted, a snapshot
    of it holds the documents that came after them. *)
Lemma ordered_docs_after_batch c n m :
  ordered_docs "__name__" c
    (remove_docs c (take n (ordered_docs "__name__" c m)) m)
  = drop n (ordered_docs "__name__" c m).
Proof.
  set (D := ordered_docs "__name__" c m).
  pose proof (NoDup_ordered_docs_ids "__name__" c m) as Hids. fold D in Hids.
  rewrite <-(take_drop n D), fmap_app in Hids.
  apply NoDup_app in Hids as (_ & Hdisjoint & _).
  symmetry. apply ordered_docs_unique.
  - apply Sorted.StronglySorted_Sorted.
    apply (StronglySorted_app_1_r _ (take n D)). rewrite take_drop.
    apply ordered_docs_sorted.
  - apply NoDup_Permutation.
    + eapply sublist_NoDup; [|apply sublist_drop].
      eapply NoDup_fmap_1, NoDup_ordered_docs_ids.
    + apply NoDup_filter, NoDup_coll_docs.
    + intros [i d].
      rewrite list_elem_of_filter, elem_of_coll_docs, lookup_remove_docs_child.
      split.
      * intros Hin. split; [by eexists|].
        rewrite decide_False.
        { eapply elem_of_ordered_docs. eapply elem_of_sublist; [done|].
          apply sublist_drop. }
        intros Htake. apply (Hdisjoint i Htake).
        apply list_elem_of_fmap. by exists (i, d).
      * intros [_ Hget]. case_decide as Htake; [done|].
        assert ((i, d) ∈ D) as Hin.
        { apply elem_of_ordered_docs. split; [done|by eexists]. }
        rewrite <-(take_drop n D) in Hin. apply elem_of_app in Hin as [Hin|Hin]; [|done].
        destruct Htake. apply list_elem_of_fmap. by exists (i, d).
Qed.

Lemma length_ordered_docs_name c m :
  length (ordered_docs "__name__" c m) = length (coll_docs c m).
Proof. by rewrite ordered_docs_name_Permutation. Qed.

(** A positive limit cuts the snapshot. *)
Lemma query_docs_name c b m :
  0 < b →
  query_docs (mkQuery c "__name__" (Some b)) m
  = take b (ordered_docs "__name__" c m).
Proof. intros Hb. by destruct b; [lia|]. Qed.

(** One turn of the loop on a collection that is empty: it stops, and
    nothing is written. *)
Lemma deleteQueryBatch_empty turns c b w :
  0 < b →
  take b (ordered_docs "__name__" c (docs w)) = [] →
  deleteQueryBatch (S turns) (mkQuery c "__name__" (Some b)) b w = (Resolved (), w).
Proof.
  intros Hb Hempty. cbn [deleteQueryBatch]. unfold bind at 1 2.
  unfold query_get. rewrite query_docs_name by done.
  rewrite Hempty. cbn [length]. rewrite decide_True by done.
  unfold resolve. cbv beta iota. by rewrite decide_True by done.
Qed.

(** One turn on a collection that is not: the snapshot is deleted as one
    batch, and the loop goes on from there. *)
Lemma deleteQueryBatch_step turns c b w :
  0 < b →
  take b (ordered_docs "__name__" c (docs w)) ≠ [] →
  deleteQueryBatch (S turns) (mkQuery c "__name__" (Some b)) b w
  = deleteQueryBatch turns (mkQuery c "__name__" (Some b)) b
      (mkWorld (remove_docs c (take b (ordered_docs "__name__" c (docs w))) (docs w))
               (log w ++ [delete_batch c (take b (ordered_docs "__name__" c (docs w)))])).
Proof.
  intros Hb Hne. cbn [deleteQueryBatch]. unfold bind at 1 2.
  unfold query_get. rewrite query_docs_name by done. cbn [q_collection].
  set (snapshot := take b (ordered_docs "__name__" c (docs w))) in *.
  assert (length snapshot ≠ 0) as Hlen by (by destruct snapshot).
  rewrite decide_False by done. unfold bind at 1.
  rewrite foldl_batch_delete, app_nil_l. unfold commit.
  rewrite apply_delete_batch. unfold resolve. cbv beta iota.
  by rewrite decide_False by done.
Qed.

Lemma chunks_nil {A} n size : chunks n size (@nil A) = [].
Proof. by destruct n. Qed.

(** Enough pieces are enough. *)
Lemma chunks_enough {A} n1 n2 size (l : list A) :
  0 < size → length l ≤ n1 → length l ≤ n2 →
  chunks n1 size l = chunks n2 size l.
Proof.
  intros Hsize. revert n2 l. induction n1 as [|n1 IH]; intros n2 l H1 H2.
  - destruct l; [|simpl in H1; lia]. by rewrite !chunks_nil.
  - destruct l as [|x l]; [by rewrite !chunks_nil|].
    destruct n2 as [|n2]; [simpl in H2; lia|]. cbn [chunks]. f_equal.
    apply IH; rewrite length_drop; simpl in *; lia.
Qed.

Lemma concat_chunks {A} n size (l : list A) :
  0 < size → length l ≤ n → concat (chunks n size l) = l.
Proof.
  intros Hsize. revert l. induction n as [|n IH]; intros l Hl.
  - destruct l; [done|simpl in Hl; lia].
  - destruct l as [|x l]; [done|]. cbn [chunks concat].
    rewrite IH; [apply take_drop|]. rewrite length_drop. simpl in *. lia.
Qed.

(** The whole loop: with turns to spare it resolves, having deleted the
    documents of the collection batch after batch, in the order of their
    identifiers. *)
Lemma deleteQueryBatch_run c b turns w :
  0 < b →
  length (ordered_docs "__name__" c (docs w)) < turns →
  deleteQueryBatch turns (mkQuery c "__name__" (Some b)) b w
  = (Resolved (),
     mkWorld (remove_docs c (ordered_docs "__name__" c (docs w)) (docs w))
             (log w ++ (delete_batch c
                          <$> chunks turns b (ordered_docs "__name__" c (docs w))))).
Proof.
  intros Hb. revert w. induction turns as [|turns IH]; intros w Hlt; [lia|].
  destruct (ordered_docs "__name__" c (docs w)) as [|x D] eqn:HD.
  - rewrite deleteQueryBatch_empty by (done || by rewrite HD, take_nil).
    destruct w as [m lg]. cbn [remove_docs foldl chunks fmap list_fmap docs log].
    by rewrite app_nil_r.
  - rewrite deleteQueryBatch_step by (done || (rewrite HD; by destruct b; [lia|])).
    rewrite IH.
    + cbn [docs log]. rewrite ordered_docs_after_batch, HD. f_equal. f_equal.
      * rewrite <-remove_docs_app. by rewrite take_drop.
      * cbn [chunks]. rewrite fmap_cons. by rewrite <-app_assoc.
    + cbn [docs]. rewrite ordered_docs_after_batch, HD.
      rewrite length_drop. simpl in *. lia.
Qed.

(** What is left of a collection once all the documents of its snapshot
    are removed: nothing of it, and everything else. *)
Lemma remove_docs_all c m id :
  remove_docs c (ordered_docs "__name__" c m) m !! (c ++ [id]) = None.
Proof.
  rewrite lookup_remove_docs_child. case_decide as Hin; [done|].
  destruct (m !! (c ++ [id])) as [d|] eqn:Hget; [|done].
  destruct Hin. apply list_elem_of_fmap. exists (id, d). split; [done|].
  apply elem_of_ordered_docs. split; [done|by eexists].
Qed.

Lemma chunks_bounded {A} n size (l : list A) :
  0 < size → Forall (λ piece, 0 < length piece ≤ size) (chunks n size l).
Proof.
  intros Hsize. revert l. induction n as [|n IH]; intros l; [constructor|].
  destruct l as [|x l]; [constructor|]. cbn [chunks]. constructor; [|apply IH].
  rewrite length_take. simpl. lia.
Qed.

(** For [__name__], the order of two documents is that of their
    identifiers. *)
Lemma doc_le_name x y : doc_le "__name__" x y ↔ String.le x.1 y.1.
Proof.
  unfold doc_le. setoid_rewrite doc_key_name. split.
  - intros (kx & ky & [= <-] & [= <-] & Hle). unfold key_le, lex in Hle. simpl in Hle.
    destruct Hle as [[_ ?]|[_ [[_ ?]|[_ [[? _]|[-> _]]]]]]; done.
  - intros Hle. eexists _, _. split; [done|]. split; [done|].
    unfold key_le, lex. simpl. right. split; [done|]. right. split; [done|].
    destruct (decide (x.1 = y.1)) as [->|Hne]; [by right|by left].
Qed.

Lemma ordered_docs_name_sorted c m :
  StronglySorted (λ x y, String.le x.1 y.1) (ordered_docs "__name__" c m).
Proof.
  pose proof (ordered_docs_sorted "__name__" c m) as Hsorted.
  induction Hsorted as [|x l Hl IH Hx]; constructor; [done|].
  eapply Forall_impl; [done|]. intros y. by apply doc_le_name.
Qed.

Lemma db_collection_run collectionPath w :
  collection_path collectionPath →
  db_collection collectionPath w = (Resolved (split_path collectionPath), w).
Proof.
  intros [Hslash Hodd]. unfold db_collection. by rewrite Hslash, decide_True.
Qed.

Lemma deleteCollection_run collectionPath b turns w :
  let c := split_path collectionPath in
  let all := ordered_docs "__name__" c (docs w) in
  collection_path collectionPath → 0 < b → remaining c w < turns →
  deleteCollection turns collectionPath b w
  = (Resolved (),
     mkWorld (remove_docs c all (docs w))
             (log w ++ (delete_batch c <$> chunks (length all) b all))).
Proof.
  intros c all Hodd Hb Hturns. unfold deleteCollection, bind.
  rewrite db_collection_run by done. fold c.
  unfold remaining in Hturns. rewrite <-length_ordered_docs_name in Hturns.
  rewrite deleteQueryBatch_run by done. subst all.
  by rewrite (chunks_enough turns (length (ordered_docs "__name__" c (docs w))))
    by lia.
Qed.

(** C3: [deleteCollection(path, batchSize)], for a positive [batchSize],
    deletes every document of the collection: it queries up to [batchSize]
    documents in the order of their identifiers, deletes each snapshot as
    one batch, and stops at the empty snapshot; so the batches are the
    successive pieces of [batchSize] documents of the collection in that
    order, and for 5 documents and [batchSize = 2] they are 3, of 2, 2 and
    1 documents. *)
Theorem deleteCollection_spec (collectionPath : string) (batchSize turns : nat)
    (w : World) :
  let c := split_path collectionPath in
  let all := ordered_docs "__name__" c (docs w) in
  let batches := chunks (length all) batchSize all in
  collection_path collectionPath →
  0 < batchSize →
  remaining c w < turns →
  ∃ w', deleteCollection turns collectionPath batchSize w = (Resolved (), w')
    ∧ (∀ id, docs w' !! (c ++ [id]) = None)
    ∧ remaining c w' = 0
    ∧ (∀ ref, child_id c ref = None → docs w' !! ref = docs w !! ref)
    ∧ log w' = log w ++ (delete_batch c <$> batches)
    ∧ all ≡ₚ coll_docs c (docs w)
    ∧ StronglySorted (λ x y, String.le x.1 y.1) all
    ∧ concat batches = all
    ∧ Forall (λ batch, 0 < length batch ≤ batchSize) batches
    ∧ (remaining c w = 5 → batchSize = 2 → length <$> batches = [2; 2; 1]).
Proof.
  intros c all batches Hodd Hb Hturns. eexists.
  split; [by apply deleteCollection_run|]. cbn [docs log]. fold c all.
  assert (∀ id, remove_docs c all (docs w) !! (c ++ [id]) = None) as Hgone.
  { intros id. apply remove_docs_all. }
  split; [done|]. split.
  { unfold remaining. cbn [docs]. by rewrite (proj2 (coll_docs_nil _ _) Hgone). }
  split; [intros ref Href; by apply lookup_remove_docs_other|].
  split; [done|]. split; [apply ordered_docs_name_Permutation|].
  split; [apply ordered_docs_name_sorted|].
  split; [by apply concat_chunks|]. split; [by apply chunks_bounded|].
  intros Hfive ->. unfold remaining in Hfive.
  rewrite <-length_ordered_docs_name in Hfive. fold c all in Hfive.
  subst batches. rewrite Hfive.
  destruct all as [|x1 [|x2 [|x3 [|x4 [|x5 [|x6 rest]]]]]]; simplify_eq/=. done.
Qed.

Lemma deleteCollection_spec_witness :
  let c := ["transcripts"; "t1"; "paragraphs"] in
  ∃ w' batches,
    deleteCollection 6 "transcripts/t1/paragraphs" 2 example_world = (Resolved (), w')
    ∧ log w' = log example_world ++ (delete_batch c <$> batches)
    ∧ length <$> batches = [2; 2; 1]
    ∧ remaining c w' = 0.
Proof.
  intros c.
  destruct (deleteCollection_spec "transcripts/t1/paragraphs" 2 6 example_world)
    as (w' & Hrun & _ & Hnone & _ & Hlog & _ & _ & _ & _ & Hfive).
  - split; vm_compute; reflexivity.
  - lia.
  - vm_compute. lia.
  - eexists w', _. split; [exact Hrun|]. split; [exact Hlog|].
    split; [|exact Hnone]. apply Hfive; [vm_compute|]; reflexivity.
Defined.

(** Five paragraphs, two at a time: three batches, in the order of the
    identifiers. *)
Example deleteCollection_example :
  log (deleteCollection 6 "transcripts/t1/paragraphs" 2 example_world).2
  = [ [WDelete ["transcripts"; "t1"; "paragraphs"; "a"];
       WDelete ["transcripts"; "t1"; "paragraphs"; "b"]];
      [WDelete ["transcripts"; "t1"; "paragraphs"; "c"];
       WDelete ["transcripts"; "t1"; "paragraphs"; "d"]];
      [WDelete ["transcripts"; "t1"; "paragraphs"; "e"]] ].
Proof. vm_compute. reflexivity. Qed.

Lemma remaining_after_batch c b w :
  length (coll_docs c (remove_docs c (take b (ordered_docs "__name__" c (docs w))) (docs w)))
  = remaining c w - length (take b (ordered_docs "__name__" c (docs w))).
Proof.
  unfold remaining. rewrite <-!length_ordered_docs_name.
  rewrite ordered_docs_after_batch, length_drop, length_take. lia.
Qed.

(** C4: the deletion loop terminates.  A turn whose query finds documents
    deletes them, between 1 and [batchSize] of them, so that fewer remain,
    and goes on (one turn is then not enough); a turn whose query finds
    none stops; and with more turns than there are documents the loop
    resolves, on an empty query. *)
Theorem deleteQueryBatch_terminates (c : path) (batchSize : nat) (w : World) :
  0 < batchSize →
  let q := mkQuery c "__name__" (Some batchSize) in
  (query_docs q (docs w) ≠ [] →
     ∃ w1, (∀ turns, deleteQueryBatch (S turns) q batchSize w
                     = deleteQueryBatch turns q batchSize w1)
       ∧ deleteQueryBatch 1 q batchSize w = (Pending, w1)
       ∧ docs w1 = remove_docs c (query_docs q (docs w)) (docs w)
       ∧ 0 < length (query_docs q (docs w)) ≤ batchSize
       ∧ remaining c w1 = remaining c w - length (query_docs q (docs w))
       ∧ remaining c w1 < remaining c w)
  ∧ (query_docs q (docs w) = [] →
     ∀ turns, deleteQueryBatch (S turns) q batchSize w = (Resolved (), w))
  ∧ (∀ turns, remaining c w < turns →
     ∃ w', deleteQueryBatch turns q batchSize w = (Resolved (), w')
           ∧ query_docs q (docs w') = []).
Proof.
  intros Hb q. subst q. rewrite query_docs_name by done. split; [|split].
  - intros Hne. eexists. split; [intros turns; by apply deleteQueryBatch_step|].
    split; [by rewrite deleteQueryBatch_step|]. cbn [docs]. split; [done|].
    assert (0 < length (take batchSize (ordered_docs "__name__" c (docs w)))
            ≤ batchSize) as Hlen.
    { rewrite length_take.
      destruct (ordered_docs "__name__" c (docs w)); [by rewrite take_nil in Hne|].
      simpl. lia. }
    split; [done|]. unfold remaining at 1 3. cbn [docs].
    rewrite remaining_after_batch. split; [done|].
    pose proof (sublist_length _ _
                  (sublist_take (ordered_docs "__name__" c (docs w)) batchSize)) as Hsub.
    rewrite length_ordered_docs_name in Hsub. unfold remaining in *. lia.
  - intros Hempty turns. by apply deleteQueryBatch_empty.
  - intros turns Hturns. eexists. split.
    + apply deleteQueryBatch_run; [done|]. by rewrite length_ordered_docs_name.
    + cbn [docs]. rewrite query_docs_name by done.
      assert (ordered_docs "__name__" c
                (remove_docs c (ordered_docs "__name__" c (docs w)) (docs w)) = [])
        as ->; [|by rewrite take_nil].
      apply Permutation_nil_r. rewrite ordered_docs_name_Permutation.
      apply Permutation_nil_r, coll_docs_nil. intros id. apply remove_docs_all.
Qed.

Lemma deleteQueryBatch_terminates_witness :
  let c := ["transcripts"; "t1"; "paragraphs"] in
  let q := mkQuery c "__name__" (Some 2) in
  (∃ w1, deleteQueryBatch 1 q 2 example_world = (Pending, w1)
         ∧ remaining c example_world = 5 ∧ remaining c w1 = 3)
  ∧ ∃ w', deleteQueryBatch 6 q 2 example_world = (Resolved (), w')
          ∧ query_docs q (docs w') = [].
Proof.
  intros c q.
  destruct (deleteQueryBatch_terminates c 2 example_world)
    as (Hstep & _ & Hstop); [lia|].
  split.
  - destruct Hstep as (w1 & _ & Hone & _ & _ & Hleft & _).
    { vm_compute. discriminate. }
    exists w1. split; [exact Hone|]. split; [vm_compute; reflexivity|].
    rewrite Hleft. vm_compute. reflexivity.
  - apply Hstop. vm_compute. lia.
Defined.

(** ** Deleting a transcript *)

(** C7: [deleteTranscript(id)] first deletes the whole [paragraphs]
    sub-collection, in batches of at most 10 documents, and only then the
    transcript document: the store commits the paragraph batches and, after
    them, the deletion of the root; once the call has resolved, neither a
    paragraph nor the transcript document is left, and nothing else has
    changed. *)
Theorem deleteTranscript_spec (id : string) (turns : nat) (w : World) :
  valid_id id →
  let c := ["transcripts"; id; "paragraphs"] in
  let tref := ["transcripts"; id] in
  let paragraphs := ordered_docs "__name__" c (docs w) in
  let batches := chunks (length paragraphs) 10 paragraphs in
  remaining c w < turns →
  ∃ w', deleteTranscript turns id w = (Resolved (), w')
    ∧ log w' = log w ++ (delete_batch c <$> batches) ++ [[WDelete tref]]
    ∧ concat batches = paragraphs
    ∧ paragraphs ≡ₚ coll_docs c (docs w)
    ∧ Forall (λ batch, 0 < length batch ≤ 10) batches
    ∧ docs w' !! tref = None
    ∧ (∀ pid, docs w' !! (c ++ [pid]) = None)
    ∧ (∀ ref, ref ≠ tref → child_id c ref = None → docs w' !! ref = docs w !! ref).
Proof.
  intros Hid c tref paragraphs batches Hturns.
  assert (split_path ("/transcripts/" +:+ id +:+ "/paragraphs") = c) as Hpath
    by (by apply split_path_paragraphs_slash).
  eexists. split.
  { unfold deleteTranscript, bind.
    rewrite deleteCollection_run; rewrite ?Hpath.
    2: { split; [by apply double_slash_paragraphs_slash|by rewrite Hpath]. }
    2: lia. 2: exact Hturns.
    cbv beta iota. rewrite db_doc_transcript by done. cbv beta iota.
    unfold doc_delete, commit. cbn [apply_writes apply_write docs log].
    reflexivity. }
  cbn [docs log]. fold c tref paragraphs batches.
  split; [by rewrite <-app_assoc|]. split; [apply concat_chunks; lia|].
  split; [apply ordered_docs_name_Permutation|].
  split; [apply chunks_bounded; lia|]. split; [apply lookup_delete_eq|].
  split.
  - intros pid. rewrite lookup_delete_ne by done. apply remove_docs_all.
  - intros ref Href Hchild. rewrite lookup_delete_ne by done.
    by apply lookup_remove_docs_other.
Qed.

Lemma deleteTranscript_spec_witness :
  let c := ["transcripts"; "t1"; "paragraphs"] in
  ∃ w', deleteTranscript 6 "t1" example_world = (Resolved (), w')
    ∧ docs w' !! ["transcripts"; "t1"] = None
    ∧ (∀ pid, docs w' !! (c ++ [pid]) = None).
Proof.
  intros c.
  destruct (deleteTranscript_spec "t1" 6 example_world)
    as (w' & Hrun & _ & _ & _ & _ & Hroot & Hparagraphs & _).
  - by vm_compute.
  - vm_compute. lia.
  - exists w'. split; [exact Hrun|]. split; [exact Hroot|exact Hparagraphs].
Defined.

(** The five paragraphs go in one batch; the transcript goes after it. *)
Example deleteTranscript_example :
  log (deleteTranscript 6 "t1" example_world).2
  = [ [WDelete ["transcripts"; "t1"; "paragraphs"; "a"];
       WDelete ["transcripts"; "t1"; "paragraphs"; "b"];
       WDelete ["transcripts"; "t1"; "paragraphs"; "c"];
       WDelete ["transcripts"; "t1"; "paragraphs"; "d"];
       WDelete ["transcripts"; "t1"; "paragraphs"; "e"]];
      [WDelete ["transcripts"; "t1"]] ].
Proof. vm_compute. reflexivity. Qed.

(** * Further properties of the operations *)

(** ** Reading a transcript *)

Lemma getTranscript_run id w :
  valid_id id →
  getTranscript id w = (Resolved (data_value (docs w !! ["transcripts"; id])), w).
Proof.
  intros Hid. unfold getTranscript, bind. by rewrite db_doc_transcript.
Qed.

Lemma getProgress_run id w d :
  valid_id id → docs w !! ["transcripts"; id] = Some d →
  getProgress id w = member (prop d "status") "progress" w.
Proof.
  intros Hid Hd. unfold getProgress, bind.
  rewrite db_doc_transcript by done. cbv beta iota. unfold doc_get.
  rewrite Hd. reflexivity.
Qed.

(** X1: [getProgress] of a transcript whose document exists: it is rejected
    with a [TypeError] when the document has no [status] (or a [null] one),
    it resolves to [status.progress] when [status] is a map, [undefined] if
    the map has no [progress], and to [undefined] when [status] is any other
    value; the store is not written. *)
Theorem getProgress_existing (id : string) (w : World) (d : object) :
  valid_id id →
  docs w !! ["transcripts"; id] = Some d →
  getProgress id w
  = match obj_get "status" d with
    | None | Some VUndefined | Some VNull => (Rejected TypeError, w)
    | Some (VObject status) =>
        (Resolved (default VUndefined (obj_get "progress" status)), w)
    | Some _ => (Resolved VUndefined, w)
    end.
Proof.
  intros Hid Hd. rewrite (getProgress_run id w d) by done. unfold prop.
  destruct (obj_get "status" d) as [[]|]; reflexivity.
Qed.

Lemma getProgress_existing_witness :
  getProgress "t1" example_world = (Resolved (VString "TRANSCRIBING"), example_world).
Proof.
  rewrite (getProgress_existing "t1" example_world
             [("status", VObject [("progress", VString "TRANSCRIBING");
                                  ("percent", VNumber 5)]);
              ("metadata", VObject [("audioDuration", VNumber 61)])]).
  - reflexivity.
  - by vm_compute.
  - vm_compute. reflexivity.
Defined.

(** X2: [getTranscript], for a well-formed id, is never rejected: it resolves
    to the data of the document, and to [undefined] when there is no
    document; the store is as it was. *)
Theorem getTranscript_spec (id : string) (w : World) :
  valid_id id →
  ∃ v, getTranscript id w = (Resolved v, w)
       ∧ (∀ d, docs w !! ["transcripts"; id] = Some d → v = VObject d)
       ∧ (docs w !! ["transcripts"; id] = None → v = VUndefined).
Proof.
  intros Hid. eexists. split; [by apply getTranscript_run|].
  split; [by intros d ->|by intros ->].
Qed.

Lemma getTranscript_spec_witness :
  getTranscript "t3" example_world = (Resolved VUndefined, example_world).
Proof.
  destruct (getTranscript_spec "t3" example_world) as (v & Hrun & _ & Hnone);
    [by vm_compute|].
  rewrite Hrun, Hnone; [reflexivity|]. vm_compute. reflexivity.
Defined.

(** ** Merge writes of one field *)

(** X3: what [setProgress] writes is what [getProgress] then reads, whatever
    the transcript held before and also when it did not exist. *)
Theorem setProgress_getProgress (id : string) (newState : ProgressType) (w : World) :
  valid_id id →
  ∃ w', setProgress id newState w = (Resolved (), w')
        ∧ getProgress id w' = (Resolved (progress_value newState), w').
Proof.
  intros Hid. destruct (setProgress_payload id newState) as (sub & -> & Hsub).
  eexists. split.
  { apply updateTranscript_run; [done|]. subst sub. by destruct newState. }
  erewrite getProgress_run; [|done|apply lookup_insert_eq].
  unfold prop. rewrite merge_fields_cons, merge_fields_nil. unfold merge_field.
  rewrite obj_get_set_eq. cbn [default Datatypes.id member]. unfold resolve, prop.
  rewrite merge_fields_cons, merge_fields_other.
  - unfold merge_field, progress_value. by rewrite obj_get_set_eq.
  - subst sub. destruct newState; unfold obj_keys; cbn [fmap list_fmap fst];
      rewrite ?not_elem_of_cons; repeat split; try done; apply not_elem_of_nil.
Qed.

Lemma setProgress_getProgress_witness :
  ∃ w', setProgress "t3" Saving example_world = (Resolved (), w')
        ∧ getProgress "t3" w' = (Resolved (VString "SAVING"), w').
Proof. apply (setProgress_getProgress "t3" Saving example_world). by vm_compute. Defined.

Lemma status_fields_merged_leaf id k n w :
  status_fields (merged id [("status", VObject [(k, VNumber n)])] w) id
  = obj_set k (VNumber n) (status_fields w id).
Proof.
  rewrite status_fields_merged. by rewrite merge_fields_cons, merge_fields_nil.
Qed.

(** X4: [setPercent] sets [status.percent] and nothing else: the progress and
    every other field of [status], every other field of the transcript and
    every other document are as before, and one write is committed. *)
Theorem setPercent_spec (id : string) (percent : Z) (w : World) :
  valid_id id →
  ∃ w', setPercent id percent w = (Resolved (), w')
    ∧ obj_get "percent" (status_fields w' id) = Some (VNumber percent)
    ∧ (∀ k, k ≠ "percent" →
         obj_get k (status_fields w' id) = obj_get k (status_fields w id))
    ∧ (∀ k, k ≠ "status" →
         obj_get k (doc_fields w' ["transcripts"; id])
         = obj_get k (doc_fields w ["transcripts"; id]))
    ∧ (∀ ref, ref ≠ ["transcripts"; id] → docs w' !! ref = docs w !! ref)
    ∧ log w' = log w ++ [[WSetMerge ["transcripts"; id]
                            [("status", VObject [("percent", VNumber percent)])]]].
Proof.
  intros Hid. eexists. split; [by apply updateTranscript_run|].
  rewrite status_fields_merged_leaf.
  split; [apply obj_get_set_eq|].
  split; [intros k Hk; by apply obj_get_set_ne|].
  split; [intros k Hk; by apply merged_status_other|].
  split; [intros ref Href; by apply docs_merged_other|]. done.
Qed.

Lemma setPercent_spec_witness :
  ∃ w', setPercent "t1" 50 example_world = (Resolved (), w')
    ∧ obj_get "percent" (status_fields w' "t1") = Some (VNumber 50)
    ∧ obj_get "progress" (status_fields w' "t1") = Some (VString "TRANSCRIBING").
Proof.
  destruct (setPercent_spec "t1" 50 example_world)
    as (w' & Hrun & Hpercent & Hother & _); [by vm_compute|].
  exists w'. split; [exact Hrun|]. split; [exact Hpercent|].
  rewrite Hother by done. vm_compute. reflexivity.
Defined.

(** X5: [setPercent] on a transcript that has no document creates one, which
    holds [status.percent] only; [getProgress] of it resolves to
    [undefined]. *)
Theorem setPercent_creates (id : string) (percent : Z) (w : World) :
  valid_id id →
  docs w !! ["transcripts"; id] = None →
  ∃ w', setPercent id percent w = (Resolved (), w')
    ∧ docs w' !! ["transcripts"; id]
      = Some [("status", VObject [("percent", VNumber percent)])]
    ∧ getProgress id w' = (Resolved VUndefined, w').
Proof.
  intros Hid Hnone.
  assert (docs (merged id [("status", VObject [("percent", VNumber percent)])] w)
            !! ["transcripts"; id]
          = Some [("status", VObject [("percent", VNumber percent)])]) as Hdoc.
  { unfold merged, doc_fields. cbn [docs]. rewrite lookup_insert_eq, Hnone.
    reflexivity. }
  eexists. split; [by apply updateTranscript_run|]. split; [exact Hdoc|].
  by rewrite (getProgress_run _ _ _ Hid Hdoc).
Qed.

Lemma setPercent_creates_witness :
  ∃ w', setPercent "t3" 50 example_world = (Resolved (), w')
    ∧ docs w' !! ["transcripts"; "t3"]
      = Some [("status", VObject [("percent", VNumber 50)])]
    ∧ getProgress "t3" w' = (Resolved VUndefined, w').
Proof.
  apply (setPercent_creates "t3" 50 example_world); [by vm_compute|].
  vm_compute. reflexivity.
Defined.

Lemma merged_overwrite id k n1 n2 w :
  docs (merged id [("status", VObject [(k, VNumber n2)])]
          (merged id [("status", VObject [(k, VNumber n1)])] w))
  = docs (merged id [("status", VObject [(k, VNumber n2)])] w).
Proof.
  unfold merged at 1. cbn [docs].
  rewrite doc_fields_merged. unfold merged. cbn [docs].
  rewrite insert_insert_eq. f_equal.
  rewrite !merge_fields_cons, !merge_fields_nil. unfold merge_field.
  rewrite obj_get_set_eq. cbn [fields_of].
  rewrite !merge_fields_cons, !merge_fields_nil. unfold merge_field.
  by rewrite !obj_set_set.
Qed.

(** X6: of two calls of [setPercent] in a row the last one wins: the
    documents are those that the second call alone would have left. *)
Theorem setPercent_last_wins (id : string) (p1 p2 : Z) (w : World) :
  valid_id id →
  ∃ w1 w2 w2', setPercent id p1 w = (Resolved (), w1)
    ∧ setPercent id p2 w1 = (Resolved (), w2)
    ∧ setPercent id p2 w = (Resolved (), w2')
    ∧ docs w2 = docs w2'.
Proof.
  intros Hid. unfold setPercent. eexists _, _, _.
  split; [by apply updateTranscript_run|].
  split; [by apply updateTranscript_run|].
  split; [by apply updateTranscript_run|]. apply merged_overwrite.
Qed.

Lemma setPercent_last_wins_witness :
  ∃ w1 w2 w2', setPercent "t1" 10 example_world = (Resolved (), w1)
    ∧ setPercent "t1" 60 w1 = (Resolved (), w2)
    ∧ setPercent "t1" 60 example_world = (Resolved (), w2')
    ∧ docs w2 = docs w2'.
Proof. apply (setPercent_last_wins "t1" 10 60 example_world). by vm_compute. Defined.

Lemma merged_top_other id k sub w k' :
  k' ≠ k →
  obj_get k' (doc_fields (merged id [(k, sub)] w) ["transcripts"; id])
  = obj_get k' (doc_fields w ["transcripts"; id]).
Proof.
  intros Hk. rewrite doc_fields_merged, merge_fields_cons, merge_fields_nil.
  by apply merge_field_other.
Qed.

(** X7: [setDuration] sets [metadata.audioDuration] and nothing else: the
    other fields of [metadata], [status] and every other field of the
    transcript, and every other document are as before. *)
Theorem setDuration_spec (id : string) (seconds : Z) (w : World) :
  valid_id id →
  ∃ w', setDuration id seconds w = (Resolved (), w')
    ∧ obj_get "audioDuration" (metadata_fields w' id) = Some (VNumber seconds)
    ∧ (∀ k, k ≠ "audioDuration" →
         obj_get k (metadata_fields w' id) = obj_get k (metadata_fields w id))
    ∧ (∀ k, k ≠ "metadata" →
         obj_get k (doc_fields w' ["transcripts"; id])
         = obj_get k (doc_fields w ["transcripts"; id]))
    ∧ status_fields w' id = status_fields w id
    ∧ (∀ ref, ref ≠ ["transcripts"; id] → docs w' !! ref = docs w !! ref).
Proof.
  intros Hid. eexists. split; [by apply updateTranscript_run|].
  assert (metadata_fields
            (merged id [("metadata", VObject [("audioDuration", VNumber seconds)])] w) id
          = obj_set "audioDuration" (VNumber seconds) (metadata_fields w id)) as ->.
  { unfold metadata_fields at 1.
    rewrite doc_fields_merged, merge_fields_cons, merge_fields_nil.
    unfold merge_field. rewrite obj_get_set_eq. cbn [fields_of].
    by rewrite merge_fields_cons, merge_fields_nil. }
  split; [apply obj_get_set_eq|].
  split; [intros k Hk; by apply obj_get_set_ne|].
  split; [intros k Hk; by apply merged_top_other|].
  split; [unfold status_fields; by rewrite merged_top_other|].
  intros ref Href. by apply docs_merged_other.
Qed.

Lemma setDuration_spec_witness :
  ∃ w', setDuration "t1" 75 example_world = (Resolved (), w')
    ∧ obj_get "audioDuration" (metadata_fields w' "t1") = Some (VNumber 75)
    ∧ status_fields w' "t1" = status_fields example_world "t1".
Proof.
  destruct (setDuration_spec "t1" 75 example_world)
    as (w' & Hrun & Hduration & _ & _ & Hstatus & _); [by vm_compute|].
  exists w'. split; [exact Hrun|]. split; [exact Hduration|exact Hstatus].
Defined.

(** X8: [setPlaybackGsUrl] sets [playbackGsUrl] and nothing else, and
    [getTranscript] then returns a record that holds the url. *)
Theorem setPlaybackGsUrl_spec (id : string) (url : string) (w : World) :
  valid_id id →
  ∃ w' d, setPlaybackGsUrl id url w = (Resolved (), w')
    ∧ getTranscript id w' = (Resolved (VObject d), w')
    ∧ obj_get "playbackGsUrl" d = Some (VString url)
    ∧ (∀ k, k ≠ "playbackGsUrl" →
         obj_get k d = obj_get k (doc_fields w ["transcripts"; id]))
    ∧ (∀ ref, ref ≠ ["transcripts"; id] → docs w' !! ref = docs w !! ref).
Proof.
  intros Hid.
  exists (merged id [("playbackGsUrl", VString url)] w),
         (doc_fields (merged id [("playbackGsUrl", VString url)] w) ["transcripts"; id]).
  split; [by apply updateTranscript_run|].
  split.
  { rewrite getTranscript_run by done. unfold doc_fields, merged. cbn [docs].
    by rewrite lookup_insert_eq. }
  split.
  { rewrite doc_fields_merged, merge_fields_cons, merge_fields_nil.
    apply obj_get_set_eq. }
  split; [intros k Hk; by apply merged_top_other|].
  intros ref Href. by apply docs_merged_other.
Qed.

Lemma setPlaybackGsUrl_spec_witness :
  ∃ w' d, setPlaybackGsUrl "t1" "gs://bucket/t1.flac" example_world = (Resolved (), w')
    ∧ getTranscript "t1" w' = (Resolved (VObject d), w')
    ∧ obj_get "playbackGsUrl" d = Some (VString "gs://bucket/t1.flac").
Proof.
  destruct (setPlaybackGsUrl_spec "t1" "gs://bucket/t1.flac" example_world)
    as (w' & d & Hrun & Hget & Hurl & _); [by vm_compute|].
  exists w', d. split; [exact Hrun|]. split; [exact Hget|exact Hurl].
Defined.

(** X9: a merge write of a transcript never removes a document, and keeps
    every paragraph under an existing transcript; so do [setProgress],
    [setPercent], [setDuration], [setPlaybackGsUrl] and [errorOccured], which
    write through [updateTranscript]. *)
Theorem updateTranscript_keeps_documents (id : string) (data : object) (w : World) :
  valid_id id →
  (∀ ref, is_Some (docs w !! ref) →
          is_Some (docs (updateTranscript id data w).2 !! ref))
  ∧ (owned (docs w) → owned (docs (updateTranscript id data w).2)).
Proof.
  intros Hid. destruct (refused data) eqn:Hdata.
  { rewrite updateTranscript_refused by done. done. }
  rewrite updateTranscript_run by done. cbn [snd].
  assert (∀ ref, is_Some (docs w !! ref) →
                 is_Some (docs (merged id data w) !! ref)) as Hkeep.
  { intros ref Hsome. unfold merged. cbn [docs].
    destruct (decide (ref = ["transcripts"; id])) as [->|Hne].
    - rewrite lookup_insert_eq. by eexists.
    - by rewrite lookup_insert_ne. }
  split; [done|]. intros Hown id' pid' Hsome. apply Hkeep.
  apply (Hown id' pid'). by rewrite docs_merged_other in Hsome.
Qed.

Lemma updateTranscript_keeps_documents_witness :
  owned (docs (setProgress "t3" Queued example_world).2).
Proof.
  apply (updateTranscript_keeps_documents "t3"
           [("status", VObject [("progress", VString "QUEUED")])] example_world).
  - by vm_compute.
  - intros id pid [d Hd]. apply elem_of_list_to_map_2 in Hd.
    repeat (apply elem_of_cons in Hd as [Hd|Hd]; [simplify_eq; vm_compute; by eexists|]).
    by apply elem_of_nil in Hd.
Defined.

(** ** All the transcripts *)

Lemma obj_set_fresh k v o : k ∉ obj_keys o → obj_set k v o = o ++ [(k, v)].
Proof.
  unfold obj_keys. induction o as [|[k' v'] o IH]; intros Hk; [done|].
  rewrite fmap_cons in Hk. apply not_elem_of_cons in Hk as [Hne Hk].
  cbn [obj_set fst]. rewrite decide_False by done. by rewrite IH.
Qed.

Lemma js_key_le_index k1 k2 n1 n2 :
  array_index k1 = Some n1 → array_index k2 = Some n2 →
  js_key_le k1 k2 ↔ (n1 ≤ n2)%N.
Proof. intros H1 H2. unfold js_key_le. by rewrite H1, H2. Qed.

Lemma js_key_le_index_name k1 k2 n1 :
  array_index k1 = Some n1 → array_index k2 = None → js_key_le k1 k2.
Proof. intros H1 H2. unfold js_key_le. by rewrite H1, H2. Qed.

Lemma js_key_le_names k1 k2 :
  array_index k1 = None → array_index k2 = None →
  js_key_le k1 k2 ↔ String.le k1 k2.
Proof. intros H1 H2. unfold js_key_le. by rewrite H1, H2. Qed.

Lemma obj_keys_insert_index n k v o :
  obj_keys (insert_index n k v o) ≡ₚ k :: obj_keys o.
Proof.
  unfold obj_keys. induction o as [|[k' v'] o IH]; [done|].
  cbn [insert_index]. destruct (array_index k') as [n'|]; [|done].
  case_decide; [|done]. rewrite !fmap_cons, IH. cbn [fst]. apply Permutation_swap.
Qed.

Lemma obj_get_insert_index n k v o k' :
  array_index k = Some n →
  obj_get k' (insert_index n k v o)
  = if decide (k = k') then Some v else obj_get k' o.
Proof.
  intros Hk. induction o as [|[k0 v0] o IH].
  - done.
  - cbn [insert_index]. destruct (array_index k0) as [n0|] eqn:Hk0; [|done].
    destruct (decide (n0 < n)%N) as [Hlt|Hge]; [|done].
    cbn [obj_get]. rewrite IH.
    destruct (decide (k0 = k')) as [<-|Hne]; [|done].
    rewrite decide_False; [done|]. intros ->. rewrite Hk in Hk0.
    simplify_eq. lia.
Qed.

Lemma insert_index_sorted n k v o :
  array_index k = Some n →
  StronglySorted js_key_le (obj_keys o) →
  StronglySorted js_key_le (obj_keys (insert_index n k v o)).
Proof.
  intros Hk. unfold obj_keys. induction o as [|[k' v'] o IH]; intros Hsorted.
  - cbn. repeat constructor.
  - rewrite fmap_cons in Hsorted. cbn [fst] in Hsorted.
    apply StronglySorted_inv in Hsorted as [Hrest Hall].
    assert (js_key_le k k' → StronglySorted js_key_le (k :: k' :: o.*1)) as Hfront.
    { intros Hle. constructor; [by constructor|]. constructor; [done|].
      eapply Forall_impl; [done|]. intros z Hz. unfold js_key_le in *.
      rewrite Hk in *. destruct (array_index k') as [n'|]; destruct (array_index z);
        try done. lia. }
    cbn [insert_index]. destruct (array_index k') as [n'|] eqn:Hk'.
    + case_decide as Hlt.
      * rewrite fmap_cons. cbn [fst]. constructor; [by apply IH|].
        change (Forall (js_key_le k') (obj_keys (insert_index n k v o))).
        rewrite obj_keys_insert_index. constructor; [|done].
        apply (js_key_le_index _ _ n' n); [done..|lia].
      * apply Hfront. apply (js_key_le_index _ _ n n'); [done..|lia].
    + apply Hfront. by eapply js_key_le_index_name.
Qed.

Lemma obj_get_assign k v o k' :
  obj_get k' (obj_assign k v o)
  = if decide (k = k' ∧ k ≠ "__proto__") then Some v else obj_get k' o.
Proof.
  unfold obj_assign. destruct (decide (k = "__proto__")) as [->|Hproto].
  { rewrite decide_False; [done|]. by intros [_ ?]. }
  assert (obj_get k' (obj_set k v o) = if decide (k = k') then Some v else obj_get k' o)
    as Hset.
  { destruct (decide (k = k')) as [<-|Hne];
      [apply obj_get_set_eq|by apply obj_get_set_ne]. }
  assert ((if decide (k = k' ∧ k ≠ "__proto__") then Some v else obj_get k' o)
          = if decide (k = k') then Some v else obj_get k' o) as ->.
  { destruct (decide (k = k')); [by rewrite decide_True|].
    rewrite decide_False; [done|]. by intros [? _]. }
  destruct (array_index k) as [n|] eqn:Hk; [|exact Hset].
  destruct (decide (k ∈ obj_keys o)); [exact Hset|].
  by apply obj_get_insert_index.
Qed.

Lemma obj_keys_assign k v o :
  k ∉ obj_keys o → k ≠ "__proto__" →
  obj_keys (obj_assign k v o) ≡ₚ k :: obj_keys o.
Proof.
  intros Hfresh Hproto. unfold obj_assign. rewrite decide_False by done.
  destruct (array_index k) as [n|].
  - rewrite decide_False by done. apply obj_keys_insert_index.
  - rewrite obj_set_fresh by done. unfold obj_keys. rewrite fmap_app.
    cbn. by rewrite Permutation_app_comm.
Qed.

(** The value under an identifier after the documents are assigned one
    after the other. *)
Lemma obj_get_assign_docs_other (l : list (string * object)) (acc : object) id :
  id ∉ l.*1 ∨ id = "__proto__" →
  obj_get id (foldl (λ transcripts doc, obj_assign doc.1 (VObject doc.2) transcripts)
                   acc l)
  = obj_get id acc.
Proof.
  revert acc. induction l as [|[i d] l IH]; intros acc Hid; [done|].
  cbn [foldl]. rewrite IH.
  - rewrite obj_get_assign. cbn [fst]. rewrite decide_False; [done|].
    intros [-> Hproto]. destruct Hid as [Hid|Hid]; [|done].
    apply Hid. rewrite fmap_cons. left.
  - destruct Hid as [Hid|Hid]; [left|by right].
    rewrite fmap_cons in Hid. by apply not_elem_of_cons in Hid as [_ ?].
Qed.

Lemma obj_get_assign_docs_elem (l : list (string * object)) (acc : object) id d :
  NoDup l.*1 → (id, d) ∈ l → id ≠ "__proto__" →
  obj_get id (foldl (λ transcripts doc, obj_assign doc.1 (VObject doc.2) transcripts)
                   acc l)
  = Some (VObject d).
Proof.
  revert acc. induction l as [|[i d'] l IH]; intros acc Hnd Hin Hproto.
  { by apply elem_of_nil in Hin. }
  rewrite fmap_cons in Hnd. apply NoDup_cons in Hnd as [Hi Hnd]. cbn [foldl].
  apply elem_of_cons in Hin as [[= <- <-]|Hin]; [|by apply IH].
  rewrite obj_get_assign_docs_other by (by left).
  rewrite obj_get_assign. cbn [fst snd]. by rewrite decide_True.
Qed.

(** The names in the order in which JavaScript lists them. *)
Lemma assign_docs_sorted (l : list (string * object)) (acc : object) :
  StronglySorted String.le l.*1 →
  NoDup (obj_keys acc ++ l.*1) →
  StronglySorted js_key_le (obj_keys acc) →
  (∀ k k2, k ∈ obj_keys acc → array_index k = None → k2 ∈ l.*1 → String.le k k2) →
  let transcripts :=
    foldl (λ transcripts doc, obj_assign doc.1 (VObject doc.2) transcripts) acc l in
  StronglySorted js_key_le (obj_keys transcripts) ∧ NoDup (obj_keys transcripts).
Proof.
  revert acc. induction l as [|[i d] l IH]; intros acc Hl Hnd Hacc Hnames.
  { cbn [foldl]. rewrite fmap_nil, app_nil_r in Hnd. done. }
  rewrite fmap_cons in Hl, Hnd, Hnames. cbn [fst] in Hl, Hnd, Hnames.
  apply StronglySorted_inv in Hl as [Hl Hi].
  apply NoDup_app in Hnd as (Hnd1 & Hdisjoint & Hnd2).
  apply NoDup_cons in Hnd2 as [Hil Hnd2].
  assert (i ∉ obj_keys acc) as Hfresh.
  { intros Hin. apply (Hdisjoint _ Hin). left. }
  cbn [foldl fst snd]. destruct (decide (i = "__proto__")) as [Hproto|Hproto].
  { assert (obj_assign i (VObject d) acc = acc) as ->
      by (unfold obj_assign; by rewrite decide_True).
    apply IH; [done| |done|].
    - apply NoDup_app. split; [done|]. split; [|done].
      intros k Hk Hkl. apply (Hdisjoint _ Hk). by right.
    - intros k k2 Hk Hindex Hk2. apply Hnames; [done..|by right]. }
  pose proof (obj_keys_assign i (VObject d) acc Hfresh Hproto) as Hkeys.
  apply IH; [done| | |].
  - rewrite Hkeys. cbn [app]. apply NoDup_cons. split.
    + rewrite not_elem_of_app. done.
    + apply NoDup_app. split; [done|]. split; [|done].
      intros k Hk Hkl. apply (Hdisjoint _ Hk). by right.
  - unfold obj_assign. rewrite decide_False by done.
    destruct (array_index i) as [n|] eqn:Hindex.
    + rewrite decide_False by done. by apply insert_index_sorted.
    + rewrite obj_set_fresh by done. unfold obj_keys. rewrite fmap_app.
      apply StronglySorted_app_2; [|done|repeat constructor].
      intros k k2 Hk Hk2. apply list_elem_of_singleton in Hk2 as ->. cbn [fst].
      destruct (array_index k) as [n|] eqn:Hkindex.
      * by eapply js_key_le_index_name.
      * apply js_key_le_names; [done..|]. apply Hnames; [done..|left].
  - intros k k2 Hk Hindex Hk2. rewrite Hkeys in Hk.
    apply elem_of_cons in Hk as [->|Hk].
    + rewrite Forall_forall in Hi. by apply Hi.
    + apply Hnames; [done..|by right].
Qed.

Lemma getTranscripts_run w :
  getTranscripts w
  = (Resolved (foldl (λ transcripts doc, obj_assign doc.1 (VObject doc.2) transcripts)
                     [] (ordered_docs "__name__" ["transcripts"] (docs w))), w).
Proof. reflexivity. Qed.

(** X10: [getTranscripts] returns a record with one property per transcript
    document and no other: under the identifier of each transcript is its
    data, and an identifier without a document names no property.  The
    names come in the order in which JavaScript lists the properties of an
    object, each once: the identifiers that are array indices first, by
    their numbers, then the others in the order of the identifiers.  A
    document named [__proto__] would give no property.  The store is not
    written. *)
Theorem getTranscripts_spec (w : World) :
  ∃ transcripts, getTranscripts w = (Resolved transcripts, w)
    ∧ (∀ id, obj_get id transcripts
             = if decide (id = "__proto__") then None
               else VObject <$> docs w !! ["transcripts"; id])
    ∧ NoDup (obj_keys transcripts)
    ∧ StronglySorted js_key_le (obj_keys transcripts).
Proof.
  eexists. split; [apply getTranscripts_run|].
  set (all := ordered_docs "__name__" ["transcripts"] (docs w)).
  assert (NoDup all.*1) as Hnd by apply NoDup_ordered_docs_ids.
  split.
  - intros id. case_decide as Hproto.
    { rewrite obj_get_assign_docs_other by (by right). done. }
    destruct (docs w !! ["transcripts"; id]) as [d|] eqn:Hd;
      cbn [fmap option_fmap option_map].
    + apply obj_get_assign_docs_elem; [done| |done].
      apply elem_of_ordered_docs. split; [done|by eexists].
    + rewrite obj_get_assign_docs_other; [done|]. left. intros Hin.
      apply list_elem_of_fmap in Hin as ([i d] & -> & Hin).
      apply elem_of_ordered_docs in Hin as [Hin _]. cbn in Hin, Hd.
      by rewrite Hd in Hin.
  - apply and_comm, assign_docs_sorted.
    + apply (StronglySorted_fmap fst (λ x y, String.le x.1 y.1)); [done|].
      apply ordered_docs_name_sorted.
    + done.
    + constructor.
    + intros k k2 Hk. by apply elem_of_nil in Hk.
Qed.

(** Two transcripts named by numbers and one that is not: the numbers come
    first, the smaller before the larger, though the query returned [10]
    before [9]. *)
Example getTranscripts_order :
  let w := mkWorld (list_to_map [ (["transcripts"; "a"], []);
                                  (["transcripts"; "10"], []);
                                  (["transcripts"; "9"], []) ]) [] in
  (ordered_docs "__name__" ["transcripts"] (docs w)).*1 = ["10"; "9"; "a"]
  ∧ (getTranscripts w).1
    = Resolved [("9", VObject []); ("10", VObject []); ("a", VObject [])].
Proof. vm_compute. split; reflexivity. Qed.

(** The two transcripts of the example, without their paragraphs. *)
Example getTranscripts_example :
  (getTranscripts example_world).1
  = Resolved
      [ ("t1", VObject [("status", VObject [("progress", VString "TRANSCRIBING");
                                            ("percent", VNumber 5)]);
                        ("metadata", VObject [("audioDuration", VNumber 61)])]);
        ("t2", VObject [("status", VObject [("progress", VString "DONE")])]) ].
Proof. vm_compute. reflexivity. Qed.

(** ** More on appending a paragraph *)

(** X11: the outcomes of [addParagraph].  A paragraph that the client
    refuses, for [undefined], the delete sentinel or an empty name inside
    it, is rejected before anything is sent, whatever the store holds.
    Else a paragraph identifier that is taken fails the batch with
    [AlreadyExists] when the transcript exists, and a missing transcript
    fails it with [NotFound] when the identifier is free; when the
    identifier is taken and the transcript is missing, the batch fails with
    one of the two.  Else both writes are committed.  Every failure leaves
    the store as it was. *)
Theorem addParagraph_outcomes (id : string) (paragraph : object) (percent : Z)
    (pid : string) (w : World) :
  valid_id id → valid_id pid →
  let pref := ["transcripts"; id; "paragraphs"; pid] in
  let tref := ["transcripts"; id] in
  let invalid := obj_has_undefined paragraph || obj_has_sentinel paragraph
                 || obj_has_empty_name paragraph in
  (invalid = true →
   addParagraph id paragraph percent pid w = (Rejected InvalidArgument, w))
  ∧ (invalid = false → is_Some (docs w !! pref) → is_Some (docs w !! tref) →
     addParagraph id paragraph percent pid w = (Rejected AlreadyExists, w))
  ∧ (invalid = false → docs w !! pref = None → docs w !! tref = None →
     addParagraph id paragraph percent pid w = (Rejected NotFound, w))
  ∧ (invalid = false → is_Some (docs w !! pref) → docs w !! tref = None →
     ∃ e, addParagraph id paragraph percent pid w = (Rejected e, w)
          ∧ (e = AlreadyExists ∨ e = NotFound))
  ∧ (invalid = false → docs w !! pref = None →
     ∀ old, docs w !! tref = Some old →
     addParagraph id paragraph percent pid w
     = (Resolved (),
        mkWorld (<[tref := update_field ["status"; "percent"] (VNumber percent) old]>
                   (<[pref := paragraph]> (docs w)))
                (log w ++ [paragraph_batch id paragraph percent pid]))).
Proof.
  intros Hid Hpid pref tref invalid. rewrite addParagraph_run by done.
  fold invalid. rewrite commit_paragraph_batch. fold pref tref.
  split; [by intros ->|]. split; [by intros -> [d ->] _|].
  split; [by intros -> -> ->|]. split.
  - intros -> [d ->] _. eexists. split; [done|by left].
  - by intros -> -> old ->.
Qed.

Lemma addParagraph_outcomes_witness :
  addParagraph "t1" [("startTime", VNumber 4)] 80 "a" example_world
  = (Rejected AlreadyExists, example_world).
Proof.
  destruct (addParagraph_outcomes "t1" [("startTime", VNumber 4)] 80 "a"
              example_world) as (_ & Htaken & _); [by vm_compute..|].
  apply Htaken; [reflexivity|vm_compute; by eexists..].
Defined.

Lemma addParagraph_resolved id paragraph percent pid w w' :
  valid_id id → valid_id pid →
  addParagraph id paragraph percent pid w = (Resolved (), w') →
  ∃ old, docs w !! ["transcripts"; id] = Some old
    ∧ docs w !! ["transcripts"; id; "paragraphs"; pid] = None
    ∧ w' = mkWorld (<[["transcripts"; id]
                       := update_field ["status"; "percent"] (VNumber percent) old]>
                      (<[["transcripts"; id; "paragraphs"; pid] := paragraph]> (docs w)))
                   (log w ++ [paragraph_batch id paragraph percent pid]).
Proof.
  intros Hid Hpid. rewrite addParagraph_run by done.
  destruct (obj_has_undefined paragraph || obj_has_sentinel paragraph
            || obj_has_empty_name paragraph); [done|].
  rewrite commit_paragraph_batch.
  destruct (docs w !! ["transcripts"; id; "paragraphs"; pid]); [done|].
  destruct (docs w !! ["transcripts"; id]) as [old|]; [|done].
  intros [= <-]. by exists old.
Qed.

(** X12: a call of [addParagraph] that resolves changes [status.percent]
    and nothing else in the transcript: the progress and every other field
    of [status], and every other field of the transcript, are as before. *)
Theorem addParagraph_keeps_fields (id : string) (paragraph : object) (percent : Z)
    (pid : string) (w w' : World) :
  valid_id id → valid_id pid →
  addParagraph id paragraph percent pid w = (Resolved (), w') →
  obj_get "percent" (status_fields w' id) = Some (VNumber percent)
  ∧ (∀ k, k ≠ "percent" →
       obj_get k (status_fields w' id) = obj_get k (status_fields w id))
  ∧ (∀ k, k ≠ "status" →
       obj_get k (doc_fields w' ["transcripts"; id])
       = obj_get k (doc_fields w ["transcripts"; id])).
Proof.
  intros Hid Hpid Hrun.
  apply addParagraph_resolved in Hrun as (old & Hold & _ & ->); [|done..].
  assert (doc_fields w ["transcripts"; id] = old) as Hfields
    by (unfold doc_fields; by rewrite Hold).
  unfold status_fields, doc_fields. cbn [docs].
  rewrite lookup_insert_eq. fold (doc_fields w ["transcripts"; id]).
  rewrite Hfields. cbn [default update_field Datatypes.id].
  rewrite obj_get_set_eq. cbn [fields_of].
  split; [apply obj_get_set_eq|].
  split; [intros k Hk; by apply obj_get_set_ne|].
  intros k Hk. by apply obj_get_set_ne.
Qed.

Lemma addParagraph_keeps_fields_witness :
  ∃ w', addParagraph "t1" [("startTime", VNumber 9)] 42 "p9" example_world
        = (Resolved (), w')
    ∧ obj_get "percent" (status_fields w' "t1") = Some (VNumber 42)
    ∧ obj_get "progress" (status_fields w' "t1") = Some (VString "TRANSCRIBING").
Proof.
  destruct (addParagraph "t1" [("startTime", VNumber 9)] 42 "p9" example_world)
    as [o w'] eqn:Hrun.
  assert (o = Resolved ()) as ->.
  { change o with (o, w').1. rewrite <-Hrun. vm_compute. reflexivity. }
  destruct (addParagraph_keeps_fields "t1" [("startTime", VNumber 9)] 42 "p9"
              example_world w') as (Hpercent & Hstatus & _);
    [by vm_compute|by vm_compute|exact Hrun|].
  exists w'. split; [reflexivity|]. split; [exact Hpercent|].
  rewrite Hstatus by done. vm_compute. reflexivity.
Defined.

Lemma child_id_length c p : length p ≠ S (length c) → child_id c p = None.
Proof.
  intros Hlen. destruct (child_id c p) as [i|] eqn:Hchild; [|done].
  apply child_id_Some in Hchild as ->. rewrite length_app in Hlen. simpl in Hlen. lia.
Qed.

Lemma coll_docs_insert_child c m id d :
  m !! (c ++ [id]) = None →
  coll_docs c (<[c ++ [id] := d]> m) ≡ₚ (id, d) :: coll_docs c m.
Proof.
  intros Hfresh. apply NoDup_Permutation.
  - apply NoDup_coll_docs.
  - apply NoDup_cons. split; [|apply NoDup_coll_docs].
    rewrite elem_of_coll_docs. by rewrite Hfresh.
  - intros [i d']. rewrite elem_of_cons, !elem_of_coll_docs.
    destruct (decide (i = id)) as [->|Hne].
    + rewrite lookup_insert_eq, Hfresh.
      split; [intros [= ->]; by left|intros [[= ->]|?]; done].
    + rewrite lookup_insert_ne by (intros ?; simplify_list_eq).
      split; [by right|intros [[= -> ->]|?]; done].
Qed.

Lemma coll_docs_insert_other c m p d :
  child_id c p = None → coll_docs c (<[p := d]> m) ≡ₚ coll_docs c m.
Proof.
  intros Hp. apply coll_docs_Permutation. intros id. apply lookup_insert_ne.
  intros ->. by rewrite (proj2 (child_id_Some _ _ _) eq_refl) in Hp.
Qed.

(** The paragraphs of a transcript after [addParagraph] has resolved. *)
Lemma coll_docs_addParagraph id paragraph percent pid w w' :
  valid_id id → valid_id pid →
  addParagraph id paragraph percent pid w = (Resolved (), w') →
  coll_docs ["transcripts"; id; "paragraphs"] (docs w')
  ≡ₚ (pid, paragraph) :: coll_docs ["transcripts"; id; "paragraphs"] (docs w).
Proof.
  intros Hid Hpid Hrun.
  apply addParagraph_resolved in Hrun as (old & _ & Hfresh & ->); [|done..].
  cbn [docs]. rewrite coll_docs_insert_other by (by apply child_id_length).
  by apply (coll_docs_insert_child ["transcripts"; id; "paragraphs"]).
Qed.

(** X13: after [addParagraph] has resolved, [getParagraphs] returns the
    paragraphs it returned before and the new one, when the new one has a
    number for [startTime]; a paragraph added without a [startTime] is
    stored but [getParagraphs] does not return it. *)
Theorem addParagraph_getParagraphs (id : string) (paragraph : object) (percent : Z)
    (pid : string) (w w' : World) :
  valid_id id → valid_id pid →
  addParagraph id paragraph percent pid w = (Resolved (), w') →
  ∃ before after,
    getParagraphs id w = (Resolved before, w)
    ∧ getParagraphs id w' = (Resolved after, w')
    ∧ docs w' !! ["transcripts"; id; "paragraphs"; pid] = Some paragraph
    ∧ ((∃ t, obj_get "startTime" paragraph = Some (VNumber t)) →
       after ≡ₚ paragraph :: before)
    ∧ (obj_get "startTime" paragraph = None → after = before).
Proof.
  intros Hid Hpid Hrun. set (c := ["transcripts"; id; "paragraphs"]).
  pose proof (coll_docs_addParagraph _ _ _ _ _ _ Hid Hpid Hrun) as Hcoll. fold c in Hcoll.
  exists (ordered_docs "startTime" c (docs w)).*2,
         (ordered_docs "startTime" c (docs w')).*2.
  split; [by apply getParagraphs_run|]. split; [by apply getParagraphs_run|].
  split.
  { apply addParagraph_resolved in Hrun as (old & _ & _ & ->); [|done..].
    cbn [docs]. by rewrite lookup_insert_ne, lookup_insert_eq. }
  split.
  - intros [t Ht].
    change (paragraph :: (ordered_docs "startTime" c (docs w)).*2)
      with (((pid, paragraph) :: ordered_docs "startTime" c (docs w)).*2).
    apply fmap_Permutation.
    rewrite !ordered_docs_Permutation, Hcoll.
    rewrite filter_cons_True; [done|].
    unfold doc_key, order_value. rewrite decide_False by done.
    cbn [snd]. rewrite Ht. by eexists.
  - intros Hnone. f_equal. symmetry. apply ordered_docs_unique.
    + apply Sorted.StronglySorted_Sorted, ordered_docs_sorted.
    + rewrite ordered_docs_Permutation, Hcoll.
      rewrite filter_cons_False; [done|].
      unfold doc_key, order_value. rewrite decide_False by done.
      cbn [snd]. rewrite Hnone. by intros [? ?].
Qed.

Lemma addParagraph_getParagraphs_witness :
  let paragraph := [("startTime", VNumber 9)] in
  ∃ w' before after,
    addParagraph "t1" paragraph 42 "p9" example_world = (Resolved (), w')
    ∧ getParagraphs "t1" example_world = (Resolved before, example_world)
    ∧ getParagraphs "t1" w' = (Resolved after, w')
    ∧ after ≡ₚ paragraph :: before.
Proof.
  intros paragraph.
  destruct (addParagraph "t1" paragraph 42 "p9" example_world) as [o w'] eqn:Hrun.
  assert (o = Resolved ()) as ->.
  { change o with (o, w').1. rewrite <-Hrun. vm_compute. reflexivity. }
  destruct (addParagraph_getParagraphs "t1" paragraph 42 "p9" example_world w')
    as (before & after & Hbefore & Hafter & _ & Hnew & _);
    [by vm_compute|by vm_compute|exact Hrun|].
  exists w', before, after. split; [reflexivity|]. split; [exact Hbefore|].
  split; [exact Hafter|]. apply Hnew. by exists 9%Z.
Defined.

(** ** More on reading paragraphs and deleting a transcript *)

Lemma ordered_docs_none field c m :
  (∀ id, m !! (c ++ [id]) = None) → ordered_docs field c m = [].
Proof.
  intros Hnone. apply Permutation_nil_r. rewrite ordered_docs_Permutation.
  by rewrite (proj2 (coll_docs_nil c m) Hnone).
Qed.

(** X14: [getParagraphs], for a well-formed id, is never rejected; it
    returns at most as many paragraphs as the collection holds, and the
    empty list for a transcript without paragraph documents, whether the
    transcript exists or not. *)
Theorem getParagraphs_bounds (id : string) (w : World) :
  valid_id id →
  let c := ["transcripts"; id; "paragraphs"] in
  ∃ paragraphs, getParagraphs id w = (Resolved paragraphs, w)
    ∧ length paragraphs ≤ remaining c w
    ∧ ((∀ pid, docs w !! (c ++ [pid]) = None) → paragraphs = []).
Proof.
  intros Hid c. eexists. split; [by apply getParagraphs_run|]. fold c. split.
  - rewrite length_fmap, ordered_docs_Permutation. unfold remaining.
    apply length_filter.
  - intros Hnone. by rewrite ordered_docs_none.
Qed.

Lemma getParagraphs_bounds_witness :
  getParagraphs "t3" example_world = (Resolved [], example_world).
Proof.
  destruct (getParagraphs_bounds "t3" example_world)
    as (paragraphs & Hrun & _ & Hnone); [by vm_compute|].
  rewrite Hrun, Hnone; [reflexivity|].
  intros pid. destruct (docs example_world !! _) as [d|] eqn:Hd; [|done].
  apply elem_of_list_to_map_2 in Hd.
  repeat (apply elem_of_cons in Hd as [Hd|Hd]; [by simplify_eq|]).
  apply elem_of_nil in Hd. destruct Hd.
Defined.

Lemma deleteTranscript_run id turns w :
  valid_id id →
  let c := ["transcripts"; id; "paragraphs"] in
  let all := ordered_docs "__name__" c (docs w) in
  remaining c w < turns →
  deleteTranscript turns id w
  = (Resolved (),
     mkWorld (delete ["transcripts"; id] (remove_docs c all (docs w)))
             ((log w ++ (delete_batch c <$> chunks (length all) 10 all))
              ++ [[WDelete ["transcripts"; id]]])).
Proof.
  intros Hid c all Hturns.
  assert (split_path ("/transcripts/" +:+ id +:+ "/paragraphs") = c) as Hpath
    by (by apply split_path_paragraphs_slash).
  unfold deleteTranscript, bind.
  rewrite deleteCollection_run; rewrite ?Hpath.
  2: { split; [by apply double_slash_paragraphs_slash|by rewrite Hpath]. }
  2: lia. 2: exact Hturns.
  cbv beta iota. rewrite db_doc_transcript by done. reflexivity.
Qed.

(** What [deleteTranscript] leaves of the transcript: nothing. *)
Lemma deleteTranscript_gone id turns w :
  valid_id id →
  remaining ["transcripts"; id; "paragraphs"] w < turns →
  ∃ w', deleteTranscript turns id w = (Resolved (), w')
    ∧ docs w' !! ["transcripts"; id] = None
    ∧ (∀ pid, docs w' !! (["transcripts"; id; "paragraphs"] ++ [pid]) = None)
    ∧ (∀ ref, ref ≠ ["transcripts"; id] →
              child_id ["transcripts"; id; "paragraphs"] ref = None →
              docs w' !! ref = docs w !! ref).
Proof.
  intros Hid Hturns. eexists. split; [by apply deleteTranscript_run|].
  cbn [docs]. split; [apply lookup_delete_eq|]. split.
  - intros pid. rewrite lookup_delete_ne by done. apply remove_docs_all.
  - intros ref Href Hchild. rewrite lookup_delete_ne by done.
    by apply lookup_remove_docs_other.
Qed.

(** Nothing to delete: one turn is enough, and only the deletion of the
    root is committed. *)
Lemma deleteTranscript_nothing id turns w :
  valid_id id →
  (∀ pid, docs w !! ["transcripts"; id; "paragraphs"; pid] = None) →
  0 < turns →
  deleteTranscript turns id w
  = (Resolved (),
     mkWorld (delete ["transcripts"; id] (docs w))
             (log w ++ [[WDelete ["transcripts"; id]]])).
Proof.
  intros Hid Hnone Hturns.
  assert (ordered_docs "__name__" ["transcripts"; id; "paragraphs"] (docs w) = [])
    as Hall by (by apply ordered_docs_none).
  rewrite deleteTranscript_run; [|done|].
  - rewrite Hall. cbn [length chunks remove_docs foldl fmap list_fmap].
    by rewrite app_nil_r.
  - unfold remaining. by rewrite <-length_ordered_docs_name, Hall.
Qed.

(** X15: [deleteTranscript] of a transcript that has neither a document nor
    paragraphs resolves within one turn, commits the deletion of the root
    only, and leaves the documents as they were. *)
Theorem deleteTranscript_absent (id : string) (turns : nat) (w : World) :
  valid_id id →
  docs w !! ["transcripts"; id] = None →
  (∀ pid, docs w !! ["transcripts"; id; "paragraphs"; pid] = None) →
  0 < turns →
  deleteTranscript turns id w
  = (Resolved (), mkWorld (docs w) (log w ++ [[WDelete ["transcripts"; id]]])).
Proof.
  intros Hid Hroot Hnone Hturns.
  rewrite deleteTranscript_nothing by done. by rewrite delete_id.
Qed.

Lemma deleteTranscript_absent_witness :
  deleteTranscript 1 "t3" example_world
  = (Resolved (),
     mkWorld (docs example_world)
             (log example_world ++ [[WDelete ["transcripts"; "t3"]]])).
Proof.
  apply (deleteTranscript_absent "t3" 1 example_world).
  - by vm_compute.
  - vm_compute. reflexivity.
  - intros pid. destruct (docs example_world !! _) as [d|] eqn:Hd; [|done].
    apply elem_of_list_to_map_2 in Hd.
    repeat (apply elem_of_cons in Hd as [Hd|Hd]; [by simplify_eq|]).
    apply elem_of_nil in Hd. destruct Hd.
  - lia.
Defined.

(** X16: once [deleteTranscript] has resolved, [getTranscript] resolves to
    [undefined], [getParagraphs] to the empty list, and [getProgress] is
    rejected with a [TypeError]; a second [deleteTranscript] resolves and
    changes no document. *)
Theorem deleteTranscript_then (id : string) (turns : nat) (w : World) :
  valid_id id →
  remaining ["transcripts"; id; "paragraphs"] w < turns →
  ∃ w', deleteTranscript turns id w = (Resolved (), w')
    ∧ getTranscript id w' = (Resolved VUndefined, w')
    ∧ getParagraphs id w' = (Resolved [], w')
    ∧ getProgress id w' = (Rejected TypeError, w')
    ∧ (∀ turns', 0 < turns' →
         ∃ w'', deleteTranscript turns' id w' = (Resolved (), w'')
                ∧ docs w'' = docs w').
Proof.
  intros Hid Hturns.
  destruct (deleteTranscript_gone id turns w Hid Hturns)
    as (w' & Hrun & Hroot & Hparagraphs & _).
  exists w'. split; [exact Hrun|].
  split; [by rewrite getTranscript_run, Hroot|].
  split; [by rewrite getParagraphs_run, ordered_docs_none|].
  split.
  { unfold getProgress, bind. rewrite db_doc_transcript by done.
    cbv beta iota. unfold doc_get. by rewrite Hroot. }
  intros turns' Hturns'. eexists. split; [by apply deleteTranscript_nothing|].
  cbn [docs]. by apply delete_id.
Qed.

Lemma deleteTranscript_then_witness :
  ∃ w', deleteTranscript 6 "t1" example_world = (Resolved (), w')
    ∧ getTranscript "t1" w' = (Resolved VUndefined, w')
    ∧ getParagraphs "t1" w' = (Resolved [], w')
    ∧ getProgress "t1" w' = (Rejected TypeError, w').
Proof.
  destruct (deleteTranscript_then "t1" 6 example_world)
    as (w' & Hrun & Htranscript & Hparagraphs & Hprogress & _).
  - by vm_compute.
  - vm_compute. lia.
  - exists w'. split; [exact Hrun|]. split; [exact Htranscript|].
    split; [exact Hparagraphs|exact Hprogress].
Defined.

(** X17: [deleteTranscript], given the turns it needs, resolves and keeps
    every remaining paragraph under an existing transcript: the transcript
    and its paragraphs are gone together, and no other document is
    touched. *)
Theorem deleteTranscript_owned (id : string) (turns : nat) (w : World) :
  valid_id id →
  let c := ["transcripts"; id; "paragraphs"] in
  remaining c w < turns →
  owned (docs w) →
  ∃ w', deleteTranscript turns id w = (Resolved (), w')
    ∧ owned (docs w')
    ∧ docs w' !! ["transcripts"; id] = None
    ∧ (∀ pid, docs w' !! ["transcripts"; id; "paragraphs"; pid] = None)
    ∧ (∀ ref, ref ≠ ["transcripts"; id] → child_id c ref = None →
              docs w' !! ref = docs w !! ref).
Proof.
  intros Hid c Hturns Hown.
  destruct (deleteTranscript_gone id turns w Hid Hturns)
    as (w' & Hrun & Hroot & Hparagraphs & Hother).
  exists w'. split; [done|]. split; [|done].
  intros id' pid' Hsome.
  destruct (decide (id' = id)) as [->|Hne].
  { pose proof (Hparagraphs pid') as Hgone. cbn [app] in Hgone.
    rewrite Hgone in Hsome. by destruct Hsome. }
  rewrite Hother in Hsome.
  - rewrite Hother; [by apply (Hown id' pid')|congruence|by apply child_id_length].
  - done.
  - destruct (child_id _ _) as [i|] eqn:Hchild; [|done].
    apply child_id_Some in Hchild. simplify_list_eq.
Qed.

Lemma deleteTranscript_owned_witness :
  ∃ w', deleteTranscript 6 "t1" example_world = (Resolved (), w')
    ∧ owned (docs w')
    ∧ docs w' !! ["transcripts"; "t1"] = None
    ∧ docs w' !! ["transcripts"; "t1"; "paragraphs"; "a"] = None
    ∧ is_Some (docs w' !! ["transcripts"; "t2"; "paragraphs"; "e"]).
Proof.
  destruct (deleteTranscript_owned "t1" 6 example_world)
    as (w' & Hrun & Hown & Hroot & Hparagraphs & Hother).
  - by vm_compute.
  - vm_compute. lia.
  - intros id pid [d Hd]. apply elem_of_list_to_map_2 in Hd.
    repeat (apply elem_of_cons in Hd as [Hd|Hd]; [simplify_eq; vm_compute; by eexists|]).
    apply elem_of_nil in Hd. destruct Hd.
  - exists w'. split; [exact Hrun|]. split; [exact Hown|]. split; [exact Hroot|].
    split; [apply Hparagraphs|]. rewrite Hother; [|discriminate|reflexivity].
    vm_compute. by eexists.
Defined.

(** ** The deletion loop, interrupted *)


Lemma chunks_cons {A} n size (l : list A) :
  l ≠ [] → chunks (S n) size l = take size l :: chunks n size (drop size l).
Proof. by destruct l. Qed.

(** Full pieces, as long as the list lasts. *)
Lemma chunks_full {A} n size (l : list A) :
  0 < size → n * size ≤ length l →
  length (chunks n size l) = n
  ∧ Forall (λ piece, length piece = size) (chunks n size l).
Proof.
  intros Hsize. revert l. induction n as [|n IH]; intros l Hle; [by split|].
  simpl in Hle. destruct l as [|x l]; [simpl in Hle; lia|].
  rewrite chunks_cons by done.
  destruct (IH (drop size (x :: l))) as [Hlen Hall].
  { rewrite length_drop. lia. }
  split; [by rewrite length_cons, Hlen|].
  constructor; [|done]. rewrite length_take. lia.
Qed.

Lemma deleteQueryBatch_partial c b turns w :
  0 < b →
  turns * b ≤ length (ordered_docs "__name__" c (docs w)) →
  deleteQueryBatch turns (mkQuery c "__name__" (Some b)) b w
  = (Pending,
     mkWorld (remove_docs c (take (turns * b) (ordered_docs "__name__" c (docs w)))
                          (docs w))
             (log w ++ (delete_batch c
                          <$> chunks turns b (ordered_docs "__name__" c (docs w))))).
Proof.
  intros Hb. revert w. induction turns as [|turns IH]; intros w Hle.
  - destruct w as [m lg].
    cbn [deleteQueryBatch Nat.mul take remove_docs foldl chunks fmap list_fmap docs log].
    by rewrite app_nil_r.
  - set (D := ordered_docs "__name__" c (docs w)) in *.
    assert (D ≠ []) as HD.
    { intros HD. rewrite HD in Hle. simpl in Hle. lia. }
    rewrite deleteQueryBatch_step.
    2: done.
    2: { fold D. destruct D; [done|]. by destruct b; [lia|]. }
    rewrite IH.
    + cbn [docs log]. rewrite ordered_docs_after_batch. fold D. f_equal. f_equal.
      * rewrite <-remove_docs_app. by rewrite take_take_drop.
      * rewrite chunks_cons by done. rewrite fmap_cons. by rewrite <-app_assoc.
    + cbn [docs]. rewrite ordered_docs_after_batch. fold D. rewrite length_drop.
      simpl in Hle. lia.
Qed.

Lemma remaining_remove_take c n w lg :
  remaining c (mkWorld (remove_docs c (take n (ordered_docs "__name__" c (docs w)))
                                    (docs w)) lg)
  = remaining c w - n.
Proof.
  unfold remaining. cbn [docs]. rewrite <-!length_ordered_docs_name.
  by rewrite ordered_docs_after_batch, length_drop.
Qed.

(** X18: the deletion loop is not atomic.  As long as the collection holds
    at least [turns * batchSize] documents, the loop is still running
    after [turns] turns: it has committed [turns] batches of exactly
    [batchSize] deletions, the first [turns * batchSize] documents in the
    order of their identifiers are gone, and the others are left.  So a
    collection of [turns * batchSize] documents takes one turn more than
    it has batches. *)
Theorem deleteQueryBatch_interrupted (c : path) (batchSize turns : nat) (w : World) :
  let q := mkQuery c "__name__" (Some batchSize) in
  let all := ordered_docs "__name__" c (docs w) in
  0 < batchSize →
  turns * batchSize ≤ remaining c w →
  ∃ w', deleteQueryBatch turns q batchSize w = (Pending, w')
    ∧ docs w' = remove_docs c (take (turns * batchSize) all) (docs w)
    ∧ log w' = log w ++ (delete_batch c <$> chunks turns batchSize all)
    ∧ length (chunks turns batchSize all) = turns
    ∧ Forall (λ batch, length batch = batchSize) (chunks turns batchSize all)
    ∧ remaining c w' = remaining c w - turns * batchSize.
Proof.
  intros q all Hb Hle. unfold remaining in Hle.
  rewrite <-length_ordered_docs_name in Hle. fold all in Hle.
  eexists. split; [by apply deleteQueryBatch_partial|]. cbn [docs log]. fold all.
  split; [done|]. split; [done|].
  destruct (chunks_full turns batchSize all Hb Hle) as [Hlen Hall].
  split; [done|]. split; [done|]. apply remaining_remove_take.
Qed.

Lemma deleteQueryBatch_interrupted_witness :
  let c := ["transcripts"; "t1"; "paragraphs"] in
  ∃ w', deleteQueryBatch 2 (mkQuery c "__name__" (Some 2)) 2 example_world
        = (Pending, w')
    ∧ remaining c w' = 1
    ∧ length (log w') = 2.
Proof.
  intros c.
  destruct (deleteQueryBatch_interrupted c 2 2 example_world)
    as (w' & Hrun & _ & Hlog & Hlen & _ & Hleft).
  - lia.
  - vm_compute. lia.
  - exists w'. split; [exact Hrun|]. split.
    + rewrite Hleft. vm_compute. reflexivity.
    + rewrite Hlog, length_app, length_fmap, Hlen. reflexivity.
Defined.

(** X19: [deleteTranscript] is not atomic either.  While the transcript has
    at least [10 * turns] paragraphs, the call is still running after
    [turns] turns: the transcript document is as it was, [10 * turns] of
    its paragraphs are gone, and nothing outside the paragraphs has
    changed. *)
Theorem deleteTranscript_interrupted (id : string) (turns : nat) (w : World) :
  valid_id id →
  let c := ["transcripts"; id; "paragraphs"] in
  turns * 10 ≤ remaining c w →
  ∃ w', deleteTranscript turns id w = (Pending, w')
    ∧ docs w' !! ["transcripts"; id] = docs w !! ["transcripts"; id]
    ∧ remaining c w' = remaining c w - turns * 10
    ∧ length (log w') = length (log w) + turns
    ∧ (∀ ref, child_id c ref = None → docs w' !! ref = docs w !! ref).
Proof.
  intros Hid c Hle.
  assert (split_path ("/transcripts/" +:+ id +:+ "/paragraphs") = c) as Hpath
    by (by apply split_path_paragraphs_slash).
  assert (turns * 10 ≤ length (ordered_docs "__name__" c (docs w))) as Hle'.
  { by rewrite length_ordered_docs_name. }
  eexists. split.
  { unfold deleteTranscript, bind at 1. unfold deleteCollection, bind at 1.
    rewrite db_collection_run.
    2: { split; [by apply double_slash_paragraphs_slash|by rewrite Hpath]. }
    rewrite Hpath. rewrite deleteQueryBatch_partial by (done || lia). reflexivity. }
  cbn [docs log].
  split; [apply lookup_remove_docs_other; by apply child_id_length|].
  split; [apply remaining_remove_take|].
  split.
  { rewrite length_app, length_fmap.
    by destruct (chunks_full turns 10 (ordered_docs "__name__" c (docs w)))
      as [-> _]; [lia|done|]. }
  intros ref Href. by apply lookup_remove_docs_other.
Qed.

Lemma deleteTranscript_interrupted_witness :
  ∃ w', deleteTranscript 1 "t1" long_world = (Pending, w')
    ∧ is_Some (docs w' !! ["transcripts"; "t1"])
    ∧ remaining ["transcripts"; "t1"; "paragraphs"] w' = 2.
Proof.
  destruct (deleteTranscript_interrupted "t1" 1 long_world)
    as (w' & Hrun & Hroot & Hleft & _).
  - by vm_compute.
  - vm_compute. lia.
  - exists w'. split; [exact Hrun|]. split.
    + rewrite Hroot. vm_compute. by eexists.
    + rewrite Hleft. vm_compute. reflexivity.
Defined.

(** ** Errors with [undefined] inside *)

Lemma obj_get_Some_elem k v (o : object) : obj_get k o = Some v → (k, v) ∈ o.
Proof.
  induction o as [|[k' v'] o IH]; [done|]. cbn [obj_get].
  case_decide as Hk; [intros [= ->]; subst; left|intros Hget; right; by apply IH].
Qed.

(** What is left after stripping, exactly. *)
Lemma elem_of_strip_undefined_iff o k v :
  NoDup (obj_keys o) →
  (k, v) ∈ strip_undefined o ↔ obj_get k o = Some v ∧ v ≠ VUndefined.
Proof.
  intros Hnd. split; [by apply elem_of_strip_undefined|].
  intros [Hget Hv]. apply obj_get_Some_elem.
  rewrite obj_get_strip_undefined, Hget. by destruct v.
Qed.

(** What the client refuses, property by property. *)
Lemma refused_true o :
  refused o = true
  ↔ ∃ k v, (k, v) ∈ o
           ∧ (has_undefined v = true ∨ k = EmptyString ∨ has_empty_name v = true).
Proof.
  split.
  - intros Hbad.
    destruct (decide (Forall (λ kv : string * value,
                                has_undefined kv.2 = false
                                ∧ kv.1 ≠ EmptyString
                                ∧ has_empty_name kv.2 = false) o)) as [Hall|Hex].
    { rewrite Forall_and in Hall. destruct Hall as [Hu He].
      apply has_undefined_fields in Hu. apply has_empty_name_fields in He.
      unfold refused, obj_has_undefined, obj_has_empty_name in Hbad.
      rewrite Hu, He in Hbad. done. }
    apply not_Forall_Exists in Hex; [|apply _].
    apply Exists_exists in Hex as ([k v] & Hin & Hv). simpl in Hv.
    exists k, v. split; [done|].
    destruct (has_undefined v); [by left|]. right.
    destruct (decide (k = EmptyString)) as [->|Hk]; [by left|]. right.
    destruct (has_empty_name v); [done|]. destruct Hv. by repeat split.
  - intros (k & v & Hin & Hv).
    destruct (refused o) eqn:Hgood; [done|].
    apply refused_false in Hgood as [Hu He].
    apply has_undefined_fields in Hu. apply has_empty_name_fields in He.
    rewrite Forall_forall in Hu, He.
    specialize (Hu _ Hin). destruct (He _ Hin) as [Hk Hn]. cbn [fst snd] in *.
    destruct Hv as [Hv|[Hv|Hv]]; congruence.
Qed.

(** X20: [errorOccured] removes [undefined] from the top of the record
    only.  The call is rejected, and nothing is written, exactly when a
    property of the record that is not itself [undefined] holds [undefined]
    further down, is named by the empty string, or holds such a name
    further down: the client refuses the record.  In every other case the
    call resolves with the merge write of the stripped record. *)
Theorem errorOccured_refused_iff (serializeError : value → object)
    (id : string) (error : value) (w : World) :
  valid_id id →
  NoDup (obj_keys (serializeError error)) →
  let record := serializeError error in
  let payload := [("status", VObject [("error", VObject (strip_undefined record))])] in
  let bad := ∃ k v, obj_get k record = Some v ∧ v ≠ VUndefined
                    ∧ (has_undefined v = true ∨ k = EmptyString
                       ∨ has_empty_name v = true) in
  (bad → errorOccured serializeError id error w = (Rejected InvalidArgument, w))
  ∧ (¬ bad →
     errorOccured serializeError id error w = (Resolved (), merged id payload w)).
Proof.
  intros Hid Hnd record payload bad.
  assert (refused (strip_undefined record) = true ↔ bad) as Hiff.
  { rewrite refused_true. subst bad. split.
    - intros (k & v & Hin & Hv). exists k, v.
      apply elem_of_strip_undefined_iff in Hin as [Hget Hdef]; done.
    - intros (k & v & Hget & Hdef & Hv). exists k, v. split; [|done].
      by apply elem_of_strip_undefined_iff. }
  unfold errorOccured. fold record payload. split.
  - intros Hbad. apply updateTranscript_refused; [done|].
    subst payload. rewrite refused_error_record. by apply Hiff.
  - intros Hgood. apply updateTranscript_run; [done|].
    subst payload. rewrite refused_error_record.
    destruct (refused (strip_undefined record)) eqn:Hbad; [|done].
    destruct Hgood. by apply Hiff.
Qed.

Lemma errorOccured_refused_iff_witness :
  let nested := VObject [("message", VString "boom"); ("code", VUndefined);
                         ("details", VObject [("reason", VUndefined)])] in
  let unnamed := VObject [("message", VString "boom"); (EmptyString, VNumber 1)] in
  errorOccured own_properties "t1" nested example_world
  = (Rejected InvalidArgument, example_world)
  ∧ errorOccured own_properties "t1" unnamed example_world
    = (Rejected InvalidArgument, example_world).
Proof.
  intros nested unnamed. split.
  - apply (errorOccured_refused_iff own_properties "t1" nested example_world).
    + by vm_compute.
    + by apply (bool_decide_unpack _); vm_compute.
    + exists "details", (VObject [("reason", VUndefined)]).
      split; [reflexivity|]. split; [discriminate|by left].
  - apply (errorOccured_refused_iff own_properties "t1" unnamed example_world).
    + by vm_compute.
    + by apply (bool_decide_unpack _); vm_compute.
    + exists EmptyString, (VNumber 1).
      split; [reflexivity|]. split; [discriminate|right; by left].
Defined.

(** ** Identifiers that are not one segment *)

Lemma segments_slash_app a s :
  segments (a +:+ String "/" s) = segments a ++ segments s.
Proof.
  induction a as [|c a IH]; [done|].
  rewrite string_app_cons. cbn [segments]. rewrite IH.
  case_decide; [done|].
  pose proof (segments_not_nil a). by destruct (segments a).
Qed.

Lemma split_path_slash_app a s :
  split_path (a +:+ String "/" s) = split_path a ++ split_path s.
Proof. unfold split_path. by rewrite segments_slash_app, filter_app. Qed.

(** The path of the transcript, whatever the identifier is. *)
Lemma split_path_transcript_any id :
  split_path ("transcripts/" +:+ id) = "transcripts" :: split_path id.
Proof.
  change ("transcripts/" +:+ id) with ("transcripts" +:+ String "/" id).
  by rewrite split_path_slash_app.
Qed.

Lemma split_path_paragraphs_any id :
  split_path ("transcripts/" +:+ id +:+ "/paragraphs")
  = "transcripts" :: split_path id ++ ["paragraphs"].
Proof.
  change ("transcripts/" +:+ id +:+ "/paragraphs")
    with ("transcripts" +:+ String "/" (id +:+ String "/" "paragraphs")).
  by rewrite !split_path_slash_app.
Qed.

Lemma split_path_paragraphs_slash_any id :
  split_path ("/transcripts/" +:+ id +:+ "/paragraphs")
  = "transcripts" :: split_path id ++ ["paragraphs"].
Proof.
  change ("/transcripts/" +:+ id +:+ "/paragraphs")
    with (EmptyString +:+ String "/" ("transcripts/" +:+ id +:+ "/paragraphs")).
  rewrite split_path_slash_app. by rewrite split_path_paragraphs_any.
Qed.

Lemma db_doc_rejected s w :
  Nat.even (length (split_path s)) = false →
  db_doc s w = (Rejected InvalidArgument, w).
Proof.
  intros Hodd. unfold db_doc. destruct (double_slash s); [done|].
  rewrite decide_False; [done|]. intros [_ Heven]. congruence.
Qed.

Lemma db_collection_rejected s w :
  Nat.odd (length (split_path s)) = false →
  db_collection s w = (Rejected InvalidArgument, w).
Proof.
  intros Heven. unfold db_collection. destruct (double_slash s); [done|].
  rewrite decide_False; [done|]. congruence.
Qed.

Section even_id.
Variable id : string.
Hypothesis Heven : Nat.even (length (split_path id)) = true.

Lemma db_doc_even_id w :
  db_doc ("transcripts/" +:+ id) w = (Rejected InvalidArgument, w).
Proof.
  apply db_doc_rejected. rewrite split_path_transcript_any, length_cons.
  rewrite Nat.even_succ, <-Nat.negb_even. by rewrite Heven.
Qed.

Lemma paragraphs_even_id s :
  split_path s = "transcripts" :: split_path id ++ ["paragraphs"] →
  Nat.odd (length (split_path s)) = false.
Proof.
  intros ->. rewrite length_cons, length_app, Nat.add_1_r.
  rewrite Nat.odd_succ, Nat.even_succ, <-Nat.negb_even. by rewrite Heven.
Qed.

Lemma updateTranscript_even_id data w :
  updateTranscript id data w = (Rejected InvalidArgument, w).
Proof. unfold updateTranscript, bind. by rewrite db_doc_even_id. Qed.

End even_id.

(** X21: the identifier is spliced into the path as it is.  One that
    splits into an even number of segments, the empty identifier and one
    of the form [a/b] among them, gives a path that is neither a document
    under [transcripts] nor its [paragraphs] collection: every operation
    that takes an identifier is then rejected by the path check, before
    anything is read or written. *)
Theorem even_id_rejected (id : string) (w : World) :
  Nat.even (length (split_path id)) = true →
  (∀ data, updateTranscript id data w = (Rejected InvalidArgument, w))
  ∧ (∀ progress, setProgress id progress w = (Rejected InvalidArgument, w))
  ∧ (∀ percent, setPercent id percent w = (Rejected InvalidArgument, w))
  ∧ (∀ seconds, setDuration id seconds w = (Rejected InvalidArgument, w))
  ∧ (∀ url, setPlaybackGsUrl id url w = (Rejected InvalidArgument, w))
  ∧ (∀ serializeError error,
       errorOccured serializeError id error w = (Rejected InvalidArgument, w))
  ∧ (∀ paragraph percent pid,
       addParagraph id paragraph percent pid w = (Rejected InvalidArgument, w))
  ∧ getProgress id w = (Rejected InvalidArgument, w)
  ∧ getTranscript id w = (Rejected InvalidArgument, w)
  ∧ getParagraphs id w = (Rejected InvalidArgument, w)
  ∧ (∀ turns, deleteTranscript turns id w = (Rejected InvalidArgument, w)).
Proof.
  intros Heven.
  split; [intros; by apply updateTranscript_even_id|].
  split; [intros; by apply updateTranscript_even_id|].
  split; [intros; by apply updateTranscript_even_id|].
  split; [intros; by apply updateTranscript_even_id|].
  split; [intros; by apply updateTranscript_even_id|].
  split; [intros; by apply updateTranscript_even_id|].
  split.
  { intros paragraph percent pid. unfold addParagraph, bind at 1.
    rewrite db_collection_rejected; [done|].
    apply (paragraphs_even_id id Heven), split_path_paragraphs_any. }
  split; [unfold getProgress, bind at 1; by rewrite db_doc_even_id|].
  split; [unfold getTranscript, bind at 1; by rewrite db_doc_even_id|].
  split.
  { unfold getParagraphs, bind at 1. rewrite db_collection_rejected; [done|].
    apply (paragraphs_even_id id Heven), split_path_paragraphs_any. }
  intros turns. unfold deleteTranscript, bind at 1. unfold deleteCollection, bind at 1.
  rewrite db_collection_rejected; [done|].
  apply (paragraphs_even_id id Heven), split_path_paragraphs_slash_any.
Qed.

Lemma even_id_rejected_witness :
  setPercent "t1/x" 50 example_world = (Rejected InvalidArgument, example_world)
  ∧ getProgress EmptyString example_world = (Rejected InvalidArgument, example_world)
  ∧ deleteTranscript 6 "t1/paragraphs" example_world
    = (Rejected InvalidArgument, example_world).
Proof.
  split; [|split].
  - apply (even_id_rejected "t1/x" example_world). reflexivity.
  - apply (even_id_rejected EmptyString example_world). reflexivity.
  - apply (even_id_rejected "t1/paragraphs" example_world). reflexivity.
Defined.

Lemma db_doc_paragraph_id a b w :
  valid_id a → valid_id b →
  db_doc ("transcripts/" +:+ a +:+ "/paragraphs/" +:+ b) w
  = (Resolved ["transcripts"; a; "paragraphs"; b], w).
Proof.
  intros Ha Hb. rewrite <-(db_doc_paragraph a b w) by done. f_equal.
  rewrite !string_app_assoc. reflexivity.
Qed.

(** X22: an identifier of the form [a/paragraphs/b] passes the path check
    and names the paragraph [b] of the transcript [a]: [getTranscript]
    returns that paragraph, and [updateTranscript], with it every setter,
    merges into it, touching no transcript document; when the transcript
    [a] does not exist, the write leaves a paragraph under no
    transcript.  Data with an empty name inside is refused here as
    anywhere, and then nothing is written. *)
Theorem updateTranscript_reaches_paragraph (a b : string) (data : object) (w : World) :
  valid_id a → valid_id b →
  obj_has_undefined data = false →
  let id := a +:+ "/paragraphs/" +:+ b in
  let ref := ["transcripts"; a; "paragraphs"; b] in
  getTranscript id w = (Resolved (data_value (docs w !! ref)), w)
  ∧ ∃ w', updateTranscript id data w
          = (if obj_has_empty_name data then Rejected InvalidArgument
             else Resolved (), w')
      ∧ docs w' = (if obj_has_empty_name data then docs w
                   else <[ref := merge_fields data (doc_fields w ref)]> (docs w))
      ∧ log w' = (if obj_has_empty_name data then log w
                  else log w ++ [[WSetMerge ref data]])
      ∧ (∀ id', docs w' !! ["transcripts"; id'] = docs w !! ["transcripts"; id'])
      ∧ (obj_has_empty_name data = false →
         docs w !! ["transcripts"; a] = None → ¬ owned (docs w')).
Proof.
  intros Ha Hb Hdata id ref. split.
  { unfold getTranscript, bind. subst id. by rewrite db_doc_paragraph_id. }
  assert (updateTranscript id data w
          = if obj_has_empty_name data then (Rejected InvalidArgument, w)
            else (Resolved (),
                  mkWorld (<[ref := merge_fields data (doc_fields w ref)]> (docs w))
                          (log w ++ [[WSetMerge ref data]]))) as Hrun.
  { unfold updateTranscript, bind. subst id. rewrite db_doc_paragraph_id by done.
    unfold doc_set_merge. rewrite Hdata, orb_false_l.
    by destruct (obj_has_empty_name data). }
  rewrite Hrun. destruct (obj_has_empty_name data).
  { exists w. by repeat split. }
  eexists. split; [done|]. cbn [docs log]. split; [done|]. split; [done|]. split.
  - intros id'. by rewrite lookup_insert_ne.
  - intros _ Hnone Hown. destruct (Hown a b) as [d Hd].
    + rewrite lookup_insert_eq. by eexists.
    + rewrite lookup_insert_ne in Hd by done. congruence.
Qed.

Lemma updateTranscript_reaches_paragraph_witness :
  ∃ w', setPercent "t3/paragraphs/p1" 50 example_world = (Resolved (), w')
    ∧ docs w' !! ["transcripts"; "t3"; "paragraphs"; "p1"]
      = Some [("status", VObject [("percent", VNumber 50)])]
    ∧ ¬ owned (docs w').
Proof.
  destruct (updateTranscript_reaches_paragraph "t3" "p1"
              [("status", VObject [("percent", VNumber 50)])] example_world)
    as (_ & w' & Hrun & Hdocs & _ & _ & Hown); [by vm_compute..|reflexivity|].
  exists w'. split; [exact Hrun|]. split.
  - rewrite Hdocs. change (obj_has_empty_name _) with false. cbv iota.
    rewrite lookup_insert_eq. vm_compute. reflexivity.
  - apply Hown; [reflexivity|]. vm_compute. reflexivity.
Defined.
